(** * jquery.dragExitVelocity.js: the recorder and the velocity estimator

    A shallow embedding of [src/jquery.dragExitVelocity.js].

    - JavaScript numbers are modelled by [num]: exact rationals together with
      the three special values [Infinity], [-Infinity] and [NaN].  This is
      the arithmetic of the real numbers, not that of binary64: rounding,
      overflow and the sign of zero are not modelled (the only divisors that
      can be zero in this program, [miniwindow] and a difference of two
      equal times, are positive zeros).  What is stated about a computed
      value is stated for exact arithmetic; [Binary64] has the interpolation
      in binary64, where its result is a rounded one.
    - A sample is the object [{x, y, time}].  A field that is missing (the
      [{}] that [$.extend({}, undefined)] returns) is only ever read inside
      arithmetic, where [undefined] converts to [NaN]; it is modelled as [NaN].
    - The array [buffer] is the list of its elements, optional samples (a
      hole or [undefined] is [None]), together with the properties the
      program can create on it under a key that is not an array index:
      [buffer[NaN]], and [buffer[n]] for a number [n] from 2^32 - 1 on, which
      [length] does not count and [filter] does not visit.
    - The [time] of a sample is a [Date]; it is modelled by its milliseconds,
      and the identity of the [Date] object, which [===] compares, by the
      identity of the sample: every sample has a [Date] of its own.
    - Sample objects are shared between the caller's array and the filtered,
      sorted array of [computeVelocity]: an object is a pair of the slot that
      holds it in the caller's array and its current fields. *)

From Stdlib Require Import QArith Qabs Qround Lqa ZArith Lia.
From Stdlib Require Strings.String.
From Stdlib Require Import Floats.PrimFloat.
From stdpp Require Import base option list sorting.

(** ** Numbers *)

Inductive num : Type :=
  | Fin (q : Q)
  | PInf
  | NInf
  | NaN.

Arguments Fin q%_Q.

Definition inf_of (positive : bool) : num := if positive then PInf else NInf.

(** An infinity of sign [positive] multiplied by the finite [q]. *)
Definition scale_inf (positive : bool) (q : Q) : num :=
  match (q ?= 0)%Q with
  | Eq => NaN
  | Gt => inf_of positive
  | Lt => inf_of (negb positive)
  end.

Definition nneg (a : num) : num :=
  match a with
  | Fin q => Fin (- q)
  | PInf => NInf
  | NInf => PInf
  | NaN => NaN
  end.

Definition nadd (a b : num) : num :=
  match a, b with
  | Fin p, Fin q => Fin (p + q)
  | NaN, _ | _, NaN => NaN
  | PInf, NInf | NInf, PInf => NaN
  | PInf, _ | _, PInf => PInf
  | NInf, _ | _, NInf => NInf
  end.

Definition nsub (a b : num) : num := nadd a (nneg b).

Definition nmul (a b : num) : num :=
  match a, b with
  | Fin p, Fin q => Fin (p * q)
  | NaN, _ | _, NaN => NaN
  | PInf, Fin q | Fin q, PInf => scale_inf true q
  | NInf, Fin q | Fin q, NInf => scale_inf false q
  | PInf, PInf | NInf, NInf => PInf
  | PInf, NInf | NInf, PInf => NInf
  end.

(** Division; a finite divisor that is zero is the positive zero. *)
Definition ndiv (a b : num) : num :=
  match a, b with
  | Fin p, Fin q =>
      match (q ?= 0)%Q with
      | Eq => scale_inf true p
      | _ => Fin (p / q)
      end
  | NaN, _ | _, NaN => NaN
  | Fin _, _ => Fin 0
  | PInf, Fin q => match (q ?= 0)%Q with Lt => NInf | _ => PInf end
  | NInf, Fin q => match (q ?= 0)%Q with Lt => PInf | _ => NInf end
  | _, _ => NaN
  end.

(** [Math.abs] *)
Definition nabs (a : num) : num :=
  match a with
  | Fin q => Fin (Qabs q)
  | PInf | NInf => PInf
  | NaN => NaN
  end.

(** [a < b] *)
Definition nlt (a b : num) : bool :=
  match a, b with
  | Fin p, Fin q => match (p ?= q)%Q with Lt => true | _ => false end
  | NaN, _ | _, NaN => false
  | _, NInf => false
  | NInf, _ => true
  | PInf, _ => false
  | Fin _, PInf => true
  end.

(** [a === 0] on numbers *)
Definition is_zero (a : num) : bool :=
  match a with
  | Fin q => Qeq_bool q 0
  | _ => false
  end.

(** [Math.round]: the nearest integer, halves upwards. *)
Definition Math_round (a : num) : num :=
  match a with
  | Fin q => Fin (inject_Z (Qfloor (q + (1 # 2))))
  | _ => a
  end.

(** ** Samples and the buffer array *)

Record Sample : Type := mkSample { pos_x : num; pos_y : num; time : num }.

Definition set_time (s : Sample) (t : num) : Sample :=
  {| pos_x := pos_x s; pos_y := pos_y s; time := t |}.

(** [$.extend({}, src)]: a shallow copy; of [undefined], the empty object. *)
Definition extend (src : option Sample) : Sample :=
  match src with
  | Some s => s
  | None => {| pos_x := NaN; pos_y := NaN; time := NaN |}
  end.

(** An array index is an integer from 0 to 2^32 - 2: an array has at most
    2^32 - 1 elements. *)
Definition array_index (n : nat) : bool := (Z.of_nat n <? 4294967295)%Z.

(** The array object: its elements, the property [NaN], and the properties
    whose key is a number that is not an array index, the last one written
    first. *)
Record Buffer : Type := mkArray {
  slots : list (option Sample);
  prop_NaN : option Sample;
  prop_num : list (nat * Sample)
}.

(** An array with no property under a number. *)
Definition mkBuffer (l : list (option Sample)) (p : option Sample) : Buffer :=
  {| slots := l; prop_NaN := p; prop_num := [] |}.

(** The property under the number [n]. *)
Fixpoint prop_lookup (n : nat) (l : list (nat * Sample)) : option Sample :=
  match l with
  | [] => None
  | (k, v) :: l' => if Nat.eqb k n then Some v else prop_lookup n l'
  end.

(** The write cursor [i]: an index, or the [NaN] that [(i + 1) % 0] yields. *)
Inductive Cursor : Type :=
  | Idx (n : nat)
  | NaNIdx.

(** [buffer[i]]: the element at [i] when there is one, and otherwise the
    property under [i], which a number names only when it is not an array
    index. *)
Definition read (b : Buffer) (i : Cursor) : option Sample :=
  match i with
  | Idx n =>
      match slots b !! n with
      | Some o => o
      | None => if array_index n then None else prop_lookup n (prop_num b)
      end
  | NaNIdx => prop_NaN b
  end.

(** [buffer[i - 1]]; index [-1] names no element. *)
Definition read_before (b : Buffer) (i : Cursor) : option Sample :=
  match i with
  | Idx 0 => None
  | Idx (S n) => read b (Idx n)
  | NaNIdx => prop_NaN b
  end.

(** [a[n] = v] on the elements of an array: past the end the array grows,
    the skipped positions are holes. *)
Definition store (l : list (option Sample)) (n : nat) (v : Sample)
    : list (option Sample) :=
  if decide (n < length l) then <[n := Some v]> l
  else l ++ replicate (n - length l) None ++ [Some v].

(** [buffer[i] = v]: an element when [i] is an array index, a property of
    the array object otherwise. *)
Definition write (b : Buffer) (i : Cursor) (v : Sample) : Buffer :=
  match i with
  | Idx n =>
      if array_index n
      then {| slots := store (slots b) n v; prop_NaN := prop_NaN b;
              prop_num := prop_num b |}
      else {| slots := slots b; prop_NaN := prop_NaN b;
              prop_num := (n, v) :: prop_num b |}
  | NaNIdx =>
      {| slots := slots b; prop_NaN := Some v; prop_num := prop_num b |}
  end.

(** ** computeVelocity *)

Record Velocity : Type := mkVelocity { Vx : num; Vy : num }.

Definition zero_velocity : Velocity := {| Vx := Fin 0; Vy := Fin 0 |}.

(** A sample object: the slot of the caller's array that holds it, and its
    fields. *)
Abbreviation Obj := (nat * Sample)%type.

(** [i = (i === 0) ? buffer.length : i] *)
Definition anchor_index (b : Buffer) (i : Cursor) : Cursor :=
  match i with
  | Idx 0 => Idx (length (slots b))
  | _ => i
  end.

(** Lines 123-125: the copy of the previous sample stamped with the clock. *)
Definition add_anchor (b : Buffer) (i : Cursor) (now : Q) : Buffer :=
  let i' := anchor_index b i in
  write b i' (set_time (extend (read_before b i')) (Fin now)).

(** [buffer.filter(function (x) { return x !== undefined })], from slot [k]. *)
Fixpoint compact_from (k : nat) (l : list (option Sample)) : list Obj :=
  match l with
  | [] => []
  | Some s :: l' => (k, s) :: compact_from (S k) l'
  | None :: l' => compact_from (S k) l'
  end.

Definition compact (l : list (option Sample)) : list Obj := compact_from 0 l.

(** The comparator of line 138.  [a.time] and [b.time] are [Date] objects,
    each sample has one of its own, so [===] holds for a sample and itself
    only; [>] compares the milliseconds. *)
Definition by_time_desc (a b : Obj) : Z :=
  if Nat.eqb a.1 b.1 then 0%Z
  else if nlt (time b.2) (time a.2) then (-1)%Z else 1%Z.

(** [Array.prototype.sort] as an insertion sort: each element in turn goes
    before the first element of the sorted part that it compares below
    (a negative result of the comparator), and so behind the elements of
    the same time that are already there: the sort is stable, as ECMAScript
    requires it to be. *)
Fixpoint sort_insert (cmp : Obj → Obj → Z) (a : Obj) (l : list Obj) : list Obj :=
  match l with
  | [] => [a]
  | e :: l' => if (cmp a e <? 0)%Z then a :: e :: l' else e :: sort_insert cmp a l'
  end.

Fixpoint sort_into (cmp : Obj → Obj → Z) (acc l : list Obj) : list Obj :=
  match l with
  | [] => acc
  | a :: l' => sort_into cmp (sort_insert cmp a acc) l'
  end.

Definition sort (cmp : Obj → Obj → Z) (l : list Obj) : list Obj :=
  sort_into cmp [] l.

(** The loop of lines 150-159 over [buffer[j], buffer[j+1], ...]: the final
    [j] and the final [mintime]. *)
Fixpoint scan (limit : num) (rest : list Obj) (j : nat) (mintime : Obj)
    : nat * Obj :=
  match rest with
  | [] => (j, mintime)
  | o :: rest' =>
      if nlt (time o.2) limit then (j, mintime)
      else if nlt (time o.2) (time mintime.2) then scan limit rest' (S j) o
      else scan limit rest' (S j) mintime
  end.

(** Lines 185-204.  The array with [buffer[j]] as the function leaves it, and
    the object returned.  [None] when [buffer[j]] is [undefined]: a dense
    array has no [buffer[j + 1]] then, [undefined] is returned, and line 166
    reads its [time], a [TypeError]. *)
Definition interpolateTrailingEdge (buffer : list Obj) (j : nat) (msec : num)
    (interpolation_threshold : num) : option (list Obj * Obj) :=
  mostrecent ← buffer !! 0;
  mintime ← buffer !! j;
  match buffer !! (S j) with
  | Some trailing =>
      if nlt (nsub (time mintime.2) (time trailing.2)) interpolation_threshold
      then
        let tmsec := nsub (time mostrecent.2) msec in
        let miniwindow := nsub (time mintime.2) (time trailing.2) in
        let w1 := nsub (Fin 1)
                    (ndiv (nabs (nsub (time mintime.2) tmsec)) miniwindow) in
        let w2 := nsub (Fin 1)
                    (ndiv (nabs (nsub tmsec (time trailing.2))) miniwindow) in
        let mintime' : Obj :=
          (mintime.1,
            {| pos_x := nadd (nmul w1 (pos_x mintime.2))
                             (nmul w2 (pos_x trailing.2));
               pos_y := nadd (nmul w1 (pos_y mintime.2))
                             (nmul w2 (pos_y trailing.2));
               time := nadd (nmul w1 (time mintime.2))
                            (nmul w2 (time trailing.2)) |}) in
        Some (<[j := mintime']> buffer, mintime')
      else Some (buffer, mintime)
  | None => Some (buffer, mintime)
  end.

(** The sorted array that lines 123-142 build. *)
Definition sorted_samples (b : Buffer) (i : Cursor) (now : Q) : list Obj :=
  sort by_time_desc (compact (slots (add_anchor b i now))).

(** Lines 146-163 on a sorted array: the array after the interpolation and
    the object [mintime]; the [mintime] of the loop is assigned over at line
    163. *)
Definition trailing_edge (buffer : list Obj) (msec : num)
    : option (list Obj * Obj) :=
  mostrecent ← buffer !! 0;
  let '(j, _) :=
    scan (nsub (time mostrecent.2) msec) (tail buffer) 1 mostrecent in
  interpolateTrailingEdge buffer (j - 1) msec (Fin 50).

(** Lines 166-179. *)
Definition velocity_of (mostrecent mintime : Sample) : Velocity :=
  let elapsed := nsub (time mostrecent) (time mintime) in
  if is_zero elapsed then zero_velocity
  else
    {| Vx := nmul (ndiv (nsub (pos_x mostrecent) (pos_x mintime)) elapsed)
                  (Fin 1000);
       Vy := nmul (ndiv (nneg (nsub (pos_y mostrecent) (pos_y mintime)))
                        elapsed)
                  (Fin 1000) |}.

(** Which [return] produced the result. *)
Inductive Exit : Type := EmptyBuffer | ZeroElapsed | Computed.

Record Outcome : Type := mkOutcome {
  exit : Exit;
  velocity : Velocity;
  buffer_after : Buffer   (* the caller's array once the call has returned *)
}.

(** The caller's array sees the fields written to [mintime]. *)
Definition write_back (b : Buffer) (mintime : Obj) : Buffer :=
  {| slots := <[mintime.1 := Some mintime.2]> (slots b);
     prop_NaN := prop_NaN b; prop_num := prop_num b |}.

(** Lines 119-180; [now] is the value of [new Date()] at line 125, and
    [None] a [TypeError]. *)
Definition computeVelocity (buffer : Buffer) (i : Cursor) (msec : num)
    (now : Q) : option Outcome :=
  let buffer0 := add_anchor buffer i now in
  match compact (slots buffer0) with
  | [] =>
      Some {| exit := EmptyBuffer; velocity := zero_velocity;
              buffer_after := buffer0 |}
  | filtered =>
      '(buffer', mintime) ← trailing_edge (sort by_time_desc filtered) msec;
      mostrecent ← buffer' !! 0;
      let elapsed := nsub (time mostrecent.2) (time mintime.2) in
      Some {| exit := if is_zero elapsed then ZeroElapsed else Computed;
              velocity := velocity_of mostrecent.2 mintime.2;
              buffer_after := write_back buffer0 mintime |}
  end.

(** ** The recorder: [$.fn.dragExitVelocity] *)

(** [Math.round(msec / 10) * 3] *)
Definition capacity (msec : num) : num :=
  nmul (Math_round (ndiv msec (Fin 10))) (Fin 3).

(** [new Array(len)]: [len] holes; a [RangeError] ([None]) unless [len] is
    an integer from 0 to 2^32 - 1. *)
Definition new_Array (len : num) : option (list (option Sample)) :=
  match len with
  | Fin q =>
      let n := Qfloor q in
      if Qeq_bool q (inject_Z n) && (0 <=? n)%Z && (n <? 2 ^ 32)%Z
      then Some (replicate (Z.to_nat n) None)
      else None
  | _ => None
  end.

(** The variables the two handlers close over. *)
Record Session : Type := mkSession {
  ses_buffer : Buffer;
  ses_i : Cursor;
  ses_len : nat;
  ses_msec : num
}.

(** Lines 63-77: the state when the handlers are registered; [None] when
    [new Array(len)] throws, which is before either handler exists. *)
Definition dragExitVelocity (msec : num) : option Session :=
  elems ← new_Array (capacity msec);
  Some {| ses_buffer := mkBuffer elems None;
          ses_i := Idx 0;
          ses_len := length elems;
          ses_msec := msec |}.

(** [(i + 1) % len] *)
Definition advance (i : Cursor) (len : nat) : Cursor :=
  match i, len with
  | Idx n, S _ => Idx ((n + 1) mod len)
  | _, _ => NaNIdx
  end.

(** The [mousemove] handler, lines 78-83; [(x, y)] is the position that
    [positionFromEvent] returns and [t] the clock. *)
Definition mousemove (s : Session) (x y : num) (t : Q) : Session :=
  let datum := {| pos_x := x; pos_y := y; time := Fin t |} in
  {| ses_buffer := write (ses_buffer s) (ses_i s) datum;
     ses_i := advance (ses_i s) (ses_len s);
     ses_len := ses_len s;
     ses_msec := ses_msec s |}.

(** The [mouseup] handler, lines 85-90: what the promise is resolved with. *)
Definition mouseup (s : Session) (now : Q) : option Outcome :=
  computeVelocity (ses_buffer s) (ses_i s) (ses_msec s) now.

(** The states of a session for the window [msec]. *)
Inductive reachable (msec : num) : Session → Prop :=
  | reach_start s :
      dragExitVelocity msec = Some s → reachable msec s
  | reach_move s x y t :
      reachable msec s → reachable msec (mousemove s x y t).

Arguments add_anchor b i now%_Q.
Arguments sorted_samples b i now%_Q.
Arguments computeVelocity buffer i msec now%_Q.
Arguments mousemove s x y t%_Q.
Arguments mouseup s now%_Q.

(** ** The argument [msec] *)

(** The primitive values [msec] can be.  An object is left out: it is
    converted by code of its own. *)
Inductive Value : Type :=
  | VUndefined
  | VNull
  | VBoolean (b : bool)
  | VNumber (n : num)
  | VString (s : String.string)
  | VSymbol
  | VBigInt (z : Z).

(** The number that [msec / 10] and [mostrecent.time - msec] compute with;
    [None] is the [TypeError] of a Symbol, and of a BigInt in arithmetic
    with a number.  [StringToNumber] is the numeric value of a string. *)
Definition ToNumber (StringToNumber : String.string → num) (v : Value)
    : option num :=
  match v with
  | VUndefined => Some NaN
  | VNull => Some (Fin 0)
  | VBoolean b => Some (Fin (if b then 1 else 0))
  | VNumber n => Some n
  | VString s => Some (StringToNumber s)
  | VSymbol | VBigInt _ => None
  end.

(** [$.fn.dragExitVelocity] called with the value [v]. *)
Definition start (StringToNumber : String.string → num) (v : Value)
    : option Session :=
  msec ← ToNumber StringToNumber v;
  dragExitVelocity msec.

(** ** Equality of numbers as values *)

Definition num_eqb (a b : num) : bool :=
  match a, b with
  | Fin p, Fin q => Qeq_bool p q
  | PInf, PInf | NInf, NInf | NaN, NaN => true
  | _, _ => false
  end.

Definition velocity_eqb (v w : Velocity) : bool :=
  num_eqb (Vx v) (Vx w) && num_eqb (Vy v) (Vy w).

Definition empty_slots (l : list (option Sample)) : Prop :=
  Forall (λ o, o = None) l.

(** ** Sessions and buffers used as examples *)

(** The session for a window of 100 ms as [$.fn.dragExitVelocity] leaves
    it. *)
Definition session_100 : Session :=
  {| ses_buffer := mkBuffer (replicate 30 None) None;
     ses_i := Idx 0;
     ses_len := 30;
     ses_msec := Fin 100 |}.

(** The session for a window of 0 ms. *)
Definition session_0 : Session :=
  {| ses_buffer := mkBuffer [] None;
     ses_i := Idx 0;
     ses_len := 0;
     ses_msec := Fin 0 |}.

Definition sample (px py t : Q) : Sample :=
  {| pos_x := Fin px; pos_y := Fin py; time := Fin t |}.

Arguments sample (px py t)%_Q.

(** Scenario A of the spec: two samples in a buffer of capacity 30. *)
Definition buffer_A : Buffer :=
  mkBuffer ([Some (sample 0 0 0); Some (sample 10 0 100)]
              ++ replicate 28 None) None.

(** Two moves within the millisecond of the release. *)
Definition buffer_tie : Buffer :=
  mkBuffer ([Some (sample 0 0 100); Some (sample 10 0 100)]
              ++ replicate 28 None) None.

(** Three samples, the oldest one outside a window of 80 ms at time 100. *)
Definition buffer_C : Buffer :=
  mkBuffer ([Some (sample 0 0 0); Some (sample 10 0 40);
             Some (sample 20 0 100)] ++ replicate 3 None) None.

(** ** Predicates of the statements *)

(** The anchor replaces the element [q] of the array: it is written at [q],
    an array index. *)
Definition overwritten (b : Buffer) (i : Cursor) (q : nat) : Prop :=
  anchor_index b i = Idx q ∧ array_index q = true.

(** [e] is another object than [a], with a time strictly before [a]'s. *)
Definition older_than (a e : Obj) : Prop :=
  e.1 ≠ a.1 ∧ nlt (time e.2) (time a.2) = true.

(** The time of [o] is a finite number. *)
Definition fin_time (o : Obj) : Prop := ∃ t, time o.2 = Fin t.

(** Both times are finite and [a] is not before [b]. *)
Definition not_before (a b : Obj) : Prop :=
  ∃ ta tb, time a.2 = Fin ta ∧ time b.2 = Fin tb ∧ (tb <= ta)%Q.

(** The two coordinates of a sample. *)
Inductive Axis : Type := AxisX | AxisY.

Definition coord (ax : Axis) (s : Sample) : num :=
  match ax with
  | AxisX => pos_x s
  | AxisY => pos_y s
  end.




(** The rational a finite number stands for. *)
Definition qof (a : num) : Q :=
  match a with
  | Fin q => q
  | _ => 0
  end.

(** The fields lines 193-200 give [mintime]. *)
Definition weighted (mostrecent mintime trailing : Sample) (msec : num)
    : Sample :=
  let tmsec := nsub (time mostrecent) msec in
  let miniwindow := nsub (time mintime) (time trailing) in
  let w1 := nsub (Fin 1) (ndiv (nabs (nsub (time mintime) tmsec)) miniwindow) in
  let w2 := nsub (Fin 1) (ndiv (nabs (nsub tmsec (time trailing))) miniwindow) in
  {| pos_x := nadd (nmul w1 (pos_x mintime)) (nmul w2 (pos_x trailing));
     pos_y := nadd (nmul w1 (pos_y mintime)) (nmul w2 (pos_y trailing));
     time := nadd (nmul w1 (time mintime)) (nmul w2 (time trailing)) |}.

(** ** Lines 193-200 in binary64 *)

(** The arithmetic of the program is that of binary64 doubles.  [Binary64]
    has the fields that lines 193-200 give [mintime] computed in that
    arithmetic, operation by operation as the source has them, to compare
    with [weighted]. *)
Module Binary64.

Record Sample : Type := mkSample { pos_x : float; pos_y : float; time : float }.

Definition weighted (mostrecent mintime trailing : Sample) (msec : float)
    : Sample :=
  let tmsec := (time mostrecent - msec)%float in
  let miniwindow := (time mintime - time trailing)%float in
  let w1 := (1 - abs (time mintime - tmsec) / miniwindow)%float in
  let w2 := (1 - abs (tmsec - time trailing) / miniwindow)%float in
  {| pos_x := (w1 * pos_x mintime + w2 * pos_x trailing)%float;
     pos_y := (w1 * pos_y mintime + w2 * pos_y trailing)%float;
     time := (w1 * time mintime + w2 * time trailing)%float |}.

End Binary64.



(** Every sample of the buffer has a finite time, as a [Date] has. *)
Definition finite_times (b : Buffer) : Prop :=
  ∀ q s, slots b !! q = Some (Some s) → ∃ t, time s = Fin t.






(** Three samples, the oldest one outside a window of 80 ms at time 1100. *)
Definition buffer_F : Buffer :=
  mkBuffer ([Some (sample 0 0 1000); Some (sample 10 0 1040);
             Some (sample 20 0 1100)] ++ replicate 3 None) None.

(** No two samples of [l] have the same time. *)
Definition distinct_times (l : list Obj) : Prop :=
  ∀ a b ta tb, a ∈ l → b ∈ l →
    time a.2 = Fin ta → time b.2 = Fin tb → (ta == tb)%Q → a = b.

(** ** [positionFromEvent] and the [mousemove] handler *)

(** What [$(...).offset()] returns when it returns an object. *)
Record Offset : Type := mkOffset { off_left : num; off_top : num }.

(** The fields of the event that the program reads; a field the browser
    does not provide is [undefined], which is falsy and converts to [NaN] in
    arithmetic, as [NaN] does.  [target_offset] is [$(evt.target).offset()],
    [None] when it is [undefined]. *)
Record Event : Type := mkEvent {
  pageX : num;
  pageY : num;
  offsetX : num;
  offsetY : num;
  target_offset : option Offset
}.

(** A number in a condition: 0 and [NaN] are falsy. *)
Definition truthy (a : num) : bool :=
  match a with
  | Fin q => negb (Qeq_bool q 0)
  | NaN => false
  | _ => true
  end.

(** Lines 102-117; [elem_offset] is [$(elem).offset()], [None] when it is
    [undefined], and the result [None] is the [TypeError] of reading [left]
    of [undefined]. *)
Definition positionFromEvent (elem_offset : option Offset) (evt : Event)
    : option (num * num) :=
  let elem_offset :=
    default {| off_left := Fin 0; off_top := Fin 0 |} elem_offset in
  if negb (truthy (offsetX evt) || truthy (offsetY evt)) then
    Some (nsub (pageX evt) (off_left elem_offset),
          nsub (pageY evt) (off_top elem_offset))
  else
    target ← target_offset evt;
    Some (nadd (offsetX evt)
               (nsub (off_left target) (off_left elem_offset)),
          nadd (offsetY evt)
               (nsub (off_top target) (off_top elem_offset))).

(** The [mousemove] handler on an event, lines 78-83: [None] when
    [positionFromEvent] throws, which is before anything is written. *)
Definition on_mousemove (s : Session) (elem_offset : option Offset)
    (evt : Event) (t : Q) : option Session :=
  '(x, y) ← positionFromEvent elem_offset evt;
  Some (mousemove s x y t).

Arguments on_mousemove s elem_offset evt t%_Q.

(** A sequence of moves, each the position and the clock of one event. *)
Abbreviation Move := (num * num * Q)%type.

Definition datum_of (m : Move) : Sample :=
  {| pos_x := m.1.1; pos_y := m.1.2; time := Fin m.2 |}.

(** The session after the moves, in the order they arrive. *)
Definition record_all (s : Session) (moves : list Move) : Session :=
  fold_left (λ s m, mousemove s m.1.1 m.1.2 m.2) moves s.

(** Finite offsets and a finite event. *)
Definition offset (l t : Q) : Offset := {| off_left := Fin l; off_top := Fin t |}.

Arguments offset (l t)%_Q.

(** Thirty-two moves, one every 10 ms from time 1000, one pixel to the
    right each. *)
Definition moves_32 : list Move :=
  map (λ k : nat, (Fin (inject_Z (Z.of_nat k)), Fin 0,
                   (1000 + 10 * inject_Z (Z.of_nat k))%Q)) (seq 0 32).

(** ** Finite samples *)

(** The index that line 163 passes to [interpolateTrailingEdge]. *)
Definition boundary_index (buffer : list Obj) (msec : num) : nat :=
  match buffer with
  | [] => 0
  | mostrecent :: rest =>
      (scan (nsub (time mostrecent.2) msec) rest 1 mostrecent).1 - 1
  end.

(** The time of a sample of finite time. *)
Definition qtime (o : Obj) : Q := qof (time o.2).

(** The weights of lines 195-196 for finite times. *)
Definition weight1 (tb tt T : Q) : Q := 1 - Qabs (tb - T) / (tb - tt).
Definition weight2 (tb tt T : Q) : Q := 1 - Qabs (T - tt) / (tb - tt).

(** * Facts about the array operations *)

Lemma compact_from_app k l1 l2 :
  compact_from k (l1 ++ l2)
  = compact_from k l1 ++ compact_from (k + length l1) l2.
Proof.
  revert k. induction l1 as [|[s|] l1 IH]; intros k; simpl.
  - by rewrite Nat.add_0_r.
  - rewrite IH. do 3 f_equal. lia.
  - rewrite IH. do 2 f_equal. lia.
Qed.

Lemma compact_from_empty k l : empty_slots l → compact_from k l = [].
Proof.
  intros H. revert k.
  induction H as [|o l Ho _ IH]; intros k; simpl; [done|].
  rewrite Ho. apply IH.
Qed.

Lemma compact_from_elem k l o :
  o ∈ compact_from k l ↔ k ≤ o.1 ∧ l !! (o.1 - k) = Some (Some o.2).
Proof.
  revert k. induction l as [|[s|] l IH]; intros k; simpl.
  - rewrite elem_of_nil, lookup_nil. split; [done|]. by intros [_ ?].
  - rewrite elem_of_cons, IH. destruct o as [r v]; simpl. split.
    + intros [[= -> ->]|[Hle Hl]].
      * split; [lia|]. by rewrite Nat.sub_diag.
      * split; [lia|]. by replace (r - k) with (S (r - S k)) by lia.
    + intros [Hle Hl]. destruct (decide (r = k)) as [->|Hne].
      * rewrite Nat.sub_diag in Hl. simpl in Hl. left. congruence.
      * right. split; [lia|].
        by replace (r - k) with (S (r - S k)) in Hl by lia.
  - rewrite IH. destruct o as [r v]; simpl. split.
    + intros [Hle Hl]. split; [lia|].
      by replace (r - k) with (S (r - S k)) by lia.
    + intros [Hle Hl]. destruct (decide (r = k)) as [->|Hne].
      * by rewrite Nat.sub_diag in Hl.
      * split; [lia|]. by replace (r - k) with (S (r - S k)) in Hl by lia.
Qed.

Lemma compact_elem l o : o ∈ compact l ↔ l !! o.1 = Some (Some o.2).
Proof.
  unfold compact. rewrite compact_from_elem, Nat.sub_0_r. intuition lia.
Qed.

(** Writing at [n] leaves a sample at [n] between what was there before it
    and after it. *)
Lemma store_split l n v :
  store l n v
  = take n (l ++ replicate (n - length l) None) ++ Some v :: drop (S n) l.
Proof.
  unfold store. destruct (decide (n < length l)) as [Hlt|Hge].
  - replace (n - length l) with 0 by lia. simpl. rewrite app_nil_r.
    by rewrite insert_take_drop by done.
  - rewrite take_ge by (rewrite length_app, length_replicate; lia).
    rewrite drop_ge by lia. by rewrite <- app_assoc.
Qed.

Lemma store_lookup l n v : store l n v !! n = Some (Some v).
Proof.
  rewrite store_split.
  assert (length (take n (l ++ replicate (n - length l) None)) = n) as Hn.
  { rewrite length_take, length_app, length_replicate. lia. }
  rewrite lookup_app_r by lia. by rewrite Hn, Nat.sub_diag.
Qed.

Lemma store_length l n v : length (store l n v) = Nat.max (length l) (S n).
Proof.
  unfold store. destruct (decide (n < length l)).
  - rewrite length_insert. lia.
  - rewrite !length_app, length_replicate. simpl. lia.
Qed.

(** A write at [n] leaves the other positions as they are, or makes a hole
    of a position before [n] that was past the end. *)
Lemma store_lookup_other l n k v :
  k ≠ n →
  store l n v !! k = l !! k
  ∨ (l !! k = None ∧ store l n v !! k = Some None ∧ k < n).
Proof.
  intros Hne. unfold store. destruct (decide (n < length l)) as [Hlt|Hge].
  - left. by rewrite list_lookup_insert_ne.
  - destruct (decide (k < length l)) as [Hk|Hk].
    + left. by rewrite lookup_app_l.
    + rewrite (lookup_ge_None_2 l k) by lia.
      rewrite lookup_app_r by lia.
      destruct (decide (k - length l < n - length l)) as [Hr|Hr].
      * right. rewrite lookup_app_l by (rewrite length_replicate; lia).
        rewrite lookup_replicate_2 by done. split; [done|]. split; [done|lia].
      * left. rewrite lookup_app_r by (rewrite length_replicate; lia).
        rewrite length_replicate.
        destruct (k - length l - (n - length l)) as [|d] eqn:E; [lia|].
        done.
Qed.

Lemma array_index_le n k :
  n ≤ k → array_index k = true → array_index n = true.
Proof. unfold array_index. rewrite !Z.ltb_lt. lia. Qed.

Lemma slots_write b n v :
  slots (write b (Idx n) v)
  = if array_index n then store (slots b) n v else slots b.
Proof. simpl. by destruct (array_index n). Qed.

Lemma read_slot b n o : slots b !! n = Some o → read b (Idx n) = o.
Proof. intros H. simpl. by rewrite H. Qed.

(** What was written at [n] is read back at [n], when [n] is an array index
    or names no element. *)
Lemma read_write b n v :
  array_index n = true ∨ length (slots b) ≤ n →
  read (write b (Idx n) v) (Idx n) = Some v.
Proof.
  intros Hn. cbn [write]. destruct (array_index n) eqn:Ha.
  - apply read_slot. apply store_lookup.
  - destruct Hn as [|Hn]; [done|]. cbn [read slots prop_num].
    rewrite lookup_ge_None_2 by done. rewrite Ha. simpl.
    by rewrite Nat.eqb_refl.
Qed.

Lemma read_write_ne b n k v :
  k ≠ n → read (write b (Idx n) v) (Idx k) = read b (Idx k).
Proof.
  intros Hne. cbn [write]. destruct (array_index n) eqn:Ha.
  - cbn [read slots prop_num].
    destruct (store_lookup_other (slots b) n k v Hne) as [->|(-> & -> & Hlt)];
      [done|].
    by rewrite (array_index_le k n) by (done || lia).
  - cbn [read slots prop_num]. destruct (slots b !! k); [done|].
    destruct (array_index k); [done|]. simpl.
    destruct (Nat.eqb_spec n k) as [->|_]; done.
Qed.

(** The elements of the array after lines 123-125. *)
Lemma slots_add_anchor b i now :
  slots (add_anchor b i now)
  = match anchor_index b i with
    | Idx k =>
        if array_index k
        then store (slots b) k
               (set_time (extend (read_before b (Idx k))) (Fin now))
        else slots b
    | NaNIdx => slots b
    end.
Proof.
  unfold add_anchor. destruct (anchor_index b i) as [k|]; [|done].
  apply slots_write.
Qed.

Lemma slots_add_anchor_index b i now k :
  anchor_index b i = Idx k → array_index k = true →
  slots (add_anchor b i now)
  = store (slots b) k (set_time (extend (read_before b (Idx k))) (Fin now)).
Proof. intros Hk Ha. by rewrite slots_add_anchor, Hk, Ha. Qed.

Lemma slots_add_anchor_prop b i now k :
  anchor_index b i = Idx k → array_index k = false →
  slots (add_anchor b i now) = slots b.
Proof. intros Hk Ha. by rewrite slots_add_anchor, Hk, Ha. Qed.

Lemma compact_empty l : compact l = [] ↔ empty_slots l.
Proof.
  split; [|apply compact_from_empty].
  intros E. apply Forall_forall. intros [s|] Ho; [|done].
  apply list_elem_of_lookup_1 in Ho as [k Hk].
  assert ((k, s) ∈ compact l) as Hin by by apply compact_elem.
  rewrite E in Hin. by apply elem_of_nil in Hin.
Qed.

(** * Facts about sorting and the scan *)

Lemma sort_insert_perm cmp a l : sort_insert cmp a l ≡ₚ a :: l.
Proof.
  induction l as [|e l IH]; simpl; [done|].
  destruct (cmp a e <? 0)%Z; [done|].
  rewrite IH. apply Permutation_swap.
Qed.

Lemma sort_into_perm cmp acc l : sort_into cmp acc l ≡ₚ acc ++ l.
Proof.
  revert acc. induction l as [|a l IH]; intros acc; simpl.
  - by rewrite app_nil_r.
  - rewrite IH, sort_insert_perm. simpl. apply Permutation_middle.
Qed.

Lemma sort_perm cmp l : sort cmp l ≡ₚ l.
Proof. apply sort_into_perm. Qed.

Lemma sort_length cmp l : length (sort cmp l) = length l.
Proof. by rewrite sort_perm. Qed.

Lemma scan_bounds limit rest j m :
  j ≤ (scan limit rest j m).1 ≤ j + length rest.
Proof.
  revert j m. induction rest as [|o rest IH]; intros j m; simpl; [lia|].
  destruct (nlt (time o.2) limit); simpl; [lia|].
  destruct (nlt (time o.2) (time m.2)).
  - specialize (IH (S j) o). lia.
  - specialize (IH (S j) m). lia.
Qed.

(** What [interpolateTrailingEdge] returns: the object at [j], and the array
    with that object's fields as they now are. *)
Lemma interpolate_inv buffer j msec thr buffer' m :
  interpolateTrailingEdge buffer j msec thr = Some (buffer', m) →
  ∃ b, buffer !! j = Some b ∧ m.1 = b.1 ∧ buffer' = <[j := m]> buffer.
Proof.
  unfold interpolateTrailingEdge.
  destruct (buffer !! 0) as [mr|]; simpl; [|done].
  destruct (buffer !! j) as [b|] eqn:Hb; simpl; [|done].
  intros H. exists b. split; [done|].
  destruct (buffer !! S j) as [tr|].
  - destruct (nlt _ thr).
    + by injection H as <- <-.
    + injection H as <- <-. by rewrite list_insert_id.
  - injection H as <- <-. by rewrite list_insert_id.
Qed.

Lemma interpolate_total buffer j msec thr :
  j < length buffer → is_Some (interpolateTrailingEdge buffer j msec thr).
Proof.
  intros Hj. unfold interpolateTrailingEdge.
  destruct (lookup_lt_is_Some_2 buffer 0 ltac:(lia)) as [mr ->].
  destruct (lookup_lt_is_Some_2 buffer j Hj) as [b ->]. simpl.
  destruct (buffer !! S j); [destruct (nlt _ thr)|]; eauto.
Qed.

Lemma trailing_edge_total buffer msec :
  buffer ≠ [] → is_Some (trailing_edge buffer msec).
Proof.
  destruct buffer as [|mr rest]; [done|]. intros _.
  unfold trailing_edge. simpl.
  pose proof (scan_bounds (nsub (time mr.2) msec) rest 1 mr) as Hj.
  destruct (scan _ rest 1 mr) as [j m]. simpl in Hj.
  apply interpolate_total. simpl. lia.
Qed.

Lemma trailing_edge_head buffer msec buffer' m :
  trailing_edge buffer msec = Some (buffer', m) → is_Some (buffer' !! 0).
Proof.
  destruct buffer as [|mr rest]; [done|].
  unfold trailing_edge. simpl. destruct (scan _ rest 1 mr) as [j m'].
  intros (b & _ & _ & ->)%interpolate_inv.
  apply lookup_lt_is_Some_2. rewrite length_insert. simpl. lia.
Qed.

Lemma computeVelocity_total buffer i msec now :
  is_Some (computeVelocity buffer i msec now).
Proof.
  unfold computeVelocity.
  destruct (compact _) as [|o l] eqn:Hc; [eauto|].
  assert (sort by_time_desc (o :: l) ≠ []) as Hne.
  { intros E. pose proof (sort_length by_time_desc (o :: l)) as Hl.
    by rewrite E in Hl. }
  destruct (trailing_edge_total _ msec Hne) as [[buffer' m] Ht].
  rewrite Ht. simpl.
  destruct (trailing_edge_head _ _ _ _ Ht) as [mr ->]. simpl. eauto.
Qed.

Lemma is_zero_self t : is_zero (nsub (Fin t) (Fin t)) = true.
Proof. simpl. apply Qeq_bool_iff. lra. Qed.

(** The anchor is an element of the array whenever it is written at an
    array index. *)
Lemma add_anchor_lookup b i now k :
  anchor_index b i = Idx k → array_index k = true →
  slots (add_anchor b i now) !! k
  = Some (Some (set_time (extend (read_before b (Idx k))) (Fin now))).
Proof.
  intros Hk Ha. rewrite (slots_add_anchor_index b i now k Hk Ha).
  apply store_lookup.
Qed.

Lemma compact_anchor_nonempty b i now k :
  anchor_index b i = Idx k → array_index k = true →
  compact (slots (add_anchor b i now)) ≠ [].
Proof.
  intros Hk Ha E.
  assert ((k, set_time (extend (read_before b (Idx k))) (Fin now))
            ∈ compact (slots (add_anchor b i now))) as Hin
    by by apply compact_elem, add_anchor_lookup.
  rewrite E in Hin. by apply elem_of_nil in Hin.
Qed.

(** The cursor of a buffer is a number exactly when the anchor index is. *)
Lemma anchor_index_Idx b n : ∃ k, anchor_index b (Idx n) = Idx k.
Proof. destruct n; simpl; eauto. Qed.

(** With every slot empty the filtered array holds the anchor alone, when
    the anchor is written at an array index, and nothing otherwise. *)
Lemma compact_anchor_alone b i now k :
  empty_slots (slots b) →
  anchor_index b i = Idx k → array_index k = true →
  compact (slots (add_anchor b i now))
  = [(k, {| pos_x := NaN; pos_y := NaN; time := Fin now |})].
Proof.
  intros He Hk Ha.
  assert (read_before b (Idx k) = None) as Hrb.
  { destruct k as [|q]; [done|]. cbn [read_before read].
    destruct (slots b !! q) as [o|] eqn:E.
    - apply list_elem_of_lookup_2 in E.
      by rewrite (proj1 (Forall_forall _ _) He o E).
    - by rewrite (array_index_le q (S q)) by (done || lia). }
  rewrite (slots_add_anchor_index b i now k Hk Ha), Hrb. simpl.
  rewrite store_split. unfold compact. rewrite compact_from_app. simpl.
  rewrite !compact_from_empty; simpl.
  - do 2 f_equal. rewrite length_take, length_app, length_replicate. lia.
  - apply Forall_drop, He.
  - apply Forall_take, Forall_app. split; [done|].
    apply Forall_replicate. done.
Qed.

Lemma compact_anchor_none b i now :
  empty_slots (slots b) →
  (∀ k, anchor_index b i = Idx k → array_index k = false) →
  compact (slots (add_anchor b i now)) = [].
Proof.
  intros He Hk. apply compact_empty. rewrite slots_add_anchor.
  destruct (anchor_index b i) as [k|]; [|done].
  by rewrite (Hk k eq_refl).
Qed.

(** A lone sample gives the result of the [elapsed === 0] branch. *)
Lemma lone_sample_zero b i msec now o t :
  compact (slots (add_anchor b i now)) = [o] → time o.2 = Fin t →
  ∃ out, computeVelocity b i msec now = Some out
    ∧ exit out = ZeroElapsed ∧ velocity out = zero_velocity.
Proof.
  intros Hc Ht. unfold computeVelocity. rewrite Hc.
  unfold trailing_edge, interpolateTrailingEdge, velocity_of. simpl.
  rewrite Ht. simpl.
  assert (Qeq_bool (t + - t) 0 = true) as -> by (apply Qeq_bool_iff; lra).
  eexists. done.
Qed.

(** * The degenerate inputs *)

Lemma empty_buffer_zero b i msec now :
  empty_slots (slots b) →
  velocity <$> computeVelocity b i msec now = Some zero_velocity.
Proof.
  intros He.
  destruct (anchor_index b i) as [k|] eqn:Hk;
    [destruct (array_index k) eqn:Ha|].
  - destruct (lone_sample_zero b i msec now _ now
                (compact_anchor_alone b i now k He Hk Ha) eq_refl)
      as (out & -> & _ & Hv).
    simpl. by rewrite Hv.
  - unfold computeVelocity. rewrite compact_anchor_none; [done..|].
    intros k' Hk'. congruence.
  - unfold computeVelocity. rewrite compact_anchor_none; [done..|].
    intros k' Hk'. congruence.
Qed.

(** C2: [computeVelocity] never throws; when every slot of the buffer is
    empty, and whenever [elapsed] is 0 after the interpolation, the result
    is exactly [{Vx: 0, Vy: 0}]. *)
Theorem C2_degenerate_input_gives_zero
    (b : Buffer) (i : Cursor) (msec : num) (now : Q) :
  is_Some (computeVelocity b i msec now)
  ∧ (empty_slots (slots b) →
      velocity <$> computeVelocity b i msec now = Some zero_velocity)
  ∧ (∀ buffer' mintime mostrecent,
      trailing_edge (sorted_samples b i now) msec = Some (buffer', mintime) →
      buffer' !! 0 = Some mostrecent →
      is_zero (nsub (time mostrecent.2) (time mintime.2)) = true →
      velocity <$> computeVelocity b i msec now = Some zero_velocity).
Proof.
  split; [apply computeVelocity_total|]. split.
  - intros He. by apply empty_buffer_zero.
  - intros buffer' mintime mostrecent Ht Hmr Hz.
    unfold computeVelocity. unfold sorted_samples in Ht.
    destruct (compact _) as [|o l]; [done|].
    rewrite Ht. simpl. rewrite Hmr. simpl.
    unfold velocity_of. by rewrite Hz.
Qed.

Lemma C2_degenerate_input_gives_zero_witness :
  empty_slots (slots (ses_buffer session_100))
  ∧ velocity <$> computeVelocity (ses_buffer session_100) (Idx 0)
                   (Fin 100) 1234
    = Some zero_velocity
  ∧ velocity <$> computeVelocity buffer_A (Idx 2) (Fin 10) 100
    = Some zero_velocity.
Proof.
  assert (empty_slots (slots (ses_buffer session_100))) as He
    by (apply Forall_replicate; reflexivity).
  split; [exact He|]. split.
  - exact (proj1 (proj2 (C2_degenerate_input_gives_zero
                           (ses_buffer session_100) (Idx 0)
                           (Fin 100) 1234%Q)) He).
  - exact (proj2 (proj2 (C2_degenerate_input_gives_zero
                           buffer_A (Idx 2) (Fin 10) 100%Q))
             _ _ _ eq_refl eq_refl eq_refl).
Defined.

(** [new Array(len)] has [len] holes, at most 2^32 - 1 of them. *)
Lemma new_Array_length len l :
  new_Array len = Some l →
  l = replicate (length l) None ∧ (Z.of_nat (length l) ≤ 4294967295)%Z.
Proof.
  unfold new_Array. destruct len as [q| | |]; try done.
  destruct (_ && _) eqn:E; [|done]. intros [= <-].
  rewrite length_replicate. split; [done|].
  apply andb_prop in E as [E Hhi]. apply andb_prop in E as [_ Hlo].
  apply Z.leb_le in Hlo. apply Z.ltb_lt in Hhi.
  change (2 ^ 32)%Z with 4294967296%Z in Hhi. lia.
Qed.

(** The index of a slot of a session is an array index. *)
Lemma slot_is_array_index msec L n :
  new_Array (capacity msec) = Some (replicate L None) →
  n < L ∨ n = 0 → array_index n = true.
Proof.
  intros [_ Hb]%new_Array_length Hn. rewrite length_replicate in Hb.
  unfold array_index. apply Z.ltb_lt. lia.
Qed.

(** The states a session goes through: the array keeps its length and the
    cursor stays below it, unless the capacity is 0, when the first sample
    lands in slot 0 and the cursor becomes [NaN]. *)
Lemma reachable_inv msec s :
  reachable msec s →
  ses_msec s = msec
  ∧ new_Array (capacity msec) = Some (replicate (ses_len s) None)
  ∧ match ses_i s with
    | Idx n =>
        length (slots (ses_buffer s)) = ses_len s
        ∧ (n < ses_len s ∨ (n = 0 ∧ ses_len s = 0))
    | NaNIdx => ses_len s = 0 ∧ compact (slots (ses_buffer s)) ≠ []
    end.
Proof.
  induction 1 as [s Hs|s x y t _ (Hm & Hcap & IH)].
  - unfold dragExitVelocity in Hs.
    destruct (new_Array (capacity msec)) as [elems|] eqn:Hn; [|done].
    injection Hs as <-. simpl. split; [done|].
    destruct (new_Array_length _ _ Hn) as [Hrep _].
    split; [congruence|]. split; [done|]. lia.
  - cbn [mousemove ses_msec ses_len ses_i ses_buffer].
    split; [done|]. split; [done|].
    destruct (ses_i s) as [n|]; [|done].
    destruct IH as [Hlen Hn].
    rewrite slots_write, (slot_is_array_index msec (ses_len s) n Hcap)
      by lia.
    destruct (ses_len s) as [|l] eqn:Hl; cbn [advance].
    + split; [done|]. intros E.
      assert ((n, {| pos_x := x; pos_y := y; time := Fin t |})
                ∈ compact (store (slots (ses_buffer s)) n
                     {| pos_x := x; pos_y := y; time := Fin t |})) as Hin
        by (apply compact_elem, store_lookup).
      rewrite E in Hin. by apply elem_of_nil in Hin.
    + rewrite store_length. split; [lia|]. left.
      apply Nat.mod_upper_bound. lia.
Qed.

(** After a move the array holds a sample. *)
Lemma moved_holds_sample msec s x y t :
  reachable msec s →
  compact (slots (ses_buffer (mousemove s x y t))) ≠ [].
Proof.
  intros Hr. destruct (reachable_inv msec s Hr) as (_ & Hcap & Hinv).
  cbn [mousemove ses_buffer].
  destruct (ses_i s) as [n|]; [|by destruct Hinv].
  destruct Hinv as [_ Hn].
  rewrite slots_write, (slot_is_array_index msec (ses_len s) n Hcap)
    by lia.
  intros E.
  assert ((n, {| pos_x := x; pos_y := y; time := Fin t |})
            ∈ compact (store (slots (ses_buffer s)) n
                 {| pos_x := x; pos_y := y; time := Fin t |})) as Hin
    by (apply compact_elem, store_lookup).
  rewrite E in Hin. by apply elem_of_nil in Hin.
Qed.

(** Until the first move the cursor is 0 and every slot is empty; from then
    on the array holds a sample. *)
Lemma reachable_fresh_or_recorded msec s :
  reachable msec s →
  (ses_i s = Idx 0 ∧ empty_slots (slots (ses_buffer s)))
  ∨ compact (slots (ses_buffer s)) ≠ [].
Proof.
  induction 1 as [s Hs|s x y t Hr IH].
  - left. unfold dragExitVelocity in Hs.
    destruct (new_Array (capacity msec)) as [elems|] eqn:Hn; [|done].
    injection Hs as <-. simpl. split; [done|].
    destruct (new_Array_length _ _ Hn) as [-> _].
    by apply Forall_replicate.
  - right. by apply (moved_holds_sample msec).
Qed.

Lemma Qfloor_ge_iff (z : Z) (x : Q) :
  (z ≤ Qfloor x)%Z ↔ (inject_Z z <= x)%Q.
Proof.
  split.
  - intros Hz. rewrite Zle_Qle in Hz. pose proof (Qfloor_le x). lra.
  - intros Hz. pose proof (Qlt_floor x) as Hlt.
    assert (inject_Z z < inject_Z (Qfloor x + 1))%Q as H by lra.
    rewrite <- Zlt_Qlt in H. lia.
Qed.

Lemma capacity_finite (q : Q) :
  capacity (Fin q) = Fin (inject_Z (Qfloor (q / 10 + (1 # 2)) * 3)).
Proof. unfold capacity. simpl. by rewrite inject_Z_mult. Qed.

Lemma new_Array_integer (z : Z) :
  new_Array (Fin (inject_Z z))
  = if (0 <=? z)%Z && (z <? 2 ^ 32)%Z
    then Some (replicate (Z.to_nat z) None) else None.
Proof.
  unfold new_Array. rewrite Qfloor_Z.
  assert (Qeq_bool (inject_Z z) (inject_Z z) = true) as ->; [|done].
  apply Qeq_bool_iff. reflexivity.
Qed.

Lemma exit_empty_iff b i msec now out :
  computeVelocity b i msec now = Some out →
  exit out = EmptyBuffer ↔ compact (slots (add_anchor b i now)) = [].
Proof.
  unfold computeVelocity. destruct (compact _) as [|o l].
  - by intros [= <-].
  - destruct (trailing_edge _ msec) as [[buffer' m]|]; [|done]. simpl.
    destruct (buffer' !! 0) as [mr|]; [|done]. intros [= <-]. simpl.
    by destruct (is_zero _).
Qed.

(** The window for which the array has 2^32 - 1 elements. *)
Lemma longest_array :
  new_Array (capacity (Fin 14316557650))
  = Some (replicate (Z.to_nat 4294967295) None).
Proof.
  rewrite capacity_finite, new_Array_integer.
  assert (Qfloor (14316557650 / 10 + (1 # 2)) = 1431655765%Z) as ->
    by reflexivity.
  change (1431655765 * 3)%Z with 4294967295%Z.
  by replace ((0 <=? 4294967295)%Z && (4294967295 <? 2 ^ 32)%Z) with true
    by reflexivity.
Qed.

(** In a session the filtered array is empty in one state only: the array
    has 2^32 - 1 slots and they are all empty. *)
Lemma release_filters_nothing msec s now :
  reachable msec s →
  compact (slots (add_anchor (ses_buffer s) (ses_i s) now)) = []
  ↔ Z.of_nat (ses_len s) = 4294967295%Z
    ∧ empty_slots (slots (ses_buffer s)).
Proof.
  intros Hr.
  destruct (reachable_inv msec s Hr) as (_ & Hcap & Hinv).
  destruct (new_Array_length _ _ Hcap) as [_ Hbound].
  rewrite length_replicate in Hbound. split.
  - intros E. destruct (ses_i s) as [n|] eqn:Hi.
    + destruct Hinv as [Hlen Hn].
      destruct (anchor_index_Idx (ses_buffer s) n) as [k Hk].
      destruct (array_index k) eqn:Ha.
      { by destruct (compact_anchor_nonempty _ _ now k Hk Ha). }
      rewrite (slots_add_anchor_prop _ _ now k Hk Ha) in E.
      apply compact_empty in E. split; [|done].
      destruct n as [|n]; cbn [anchor_index] in Hk.
      * injection Hk as <-. rewrite Hlen in Ha.
        unfold array_index in Ha. apply Z.ltb_ge in Ha. lia.
      * injection Hk as <-.
        rewrite (slot_is_array_index msec (ses_len s) (S n) Hcap) in Ha
          by lia.
        done.
    + destruct Hinv as [_ Hne]. rewrite slots_add_anchor in E. done.
  - intros [Hfull He].
    destruct (reachable_fresh_or_recorded msec s Hr) as [[Hi _]|Hrec];
      [|by apply compact_empty in He].
    apply compact_anchor_none; [done|].
    rewrite Hi in Hinv |- *. destruct Hinv as [Hlen _].
    intros k [= <-]. rewrite Hlen. unfold array_index.
    apply Z.ltb_ge. lia.
Qed.

(** C10 (as the code has it): the filtered array holds the anchor, and so
    is not empty, whenever the anchor is written at an array index; the
    result for a buffer with no sample then comes from the [elapsed === 0]
    branch.  In a session the filtered array is empty, and the [return] of
    the empty array taken, in one state only: the array has 2^32 - 1 slots,
    all empty, so that the anchor written at [buffer.length] is a plain
    property of the array. *)
Theorem C10_filtered_array_empty_only_without_index :
  (∀ (b : Buffer) (i : Cursor) (msec : num) (now : Q) (k : nat),
      anchor_index b i = Idx k → array_index k = true →
      compact (slots (add_anchor b i now)) ≠ []
      ∧ ∃ out, computeVelocity b i msec now = Some out
          ∧ exit out ≠ EmptyBuffer
          ∧ (empty_slots (slots b) →
              exit out = ZeroElapsed ∧ velocity out = zero_velocity))
  ∧ (∀ (msec : num) (s : Session) (now : Q),
      reachable msec s →
      ∃ out, mouseup s now = Some out
        ∧ (exit out = EmptyBuffer
           ↔ Z.of_nat (ses_len s) = 4294967295%Z
             ∧ empty_slots (slots (ses_buffer s)))).
Proof.
  split.
  - intros b i msec now k Hk Ha.
    pose proof (compact_anchor_nonempty b i now k Hk Ha) as Hne.
    split; [done|].
    destruct (computeVelocity_total b i msec now) as [out Hout].
    exists out. split; [done|]. split.
    + by rewrite (exit_empty_iff b i msec now out Hout).
    + intros He.
      destruct (lone_sample_zero b i msec now _ now
                  (compact_anchor_alone b i now k He Hk Ha) eq_refl)
        as (out' & Hout' & Hex & Hv).
      rewrite Hout in Hout'. by injection Hout' as <-.
  - intros msec s now Hr.
    destruct (computeVelocity_total (ses_buffer s) (ses_i s) (ses_msec s) now)
      as [out Hout].
    exists out. split; [done|].
    rewrite (exit_empty_iff _ _ _ _ out Hout).
    by apply (release_filters_nothing msec).
Qed.

Lemma C10_filtered_array_empty_only_without_index_witness :
  empty_slots (slots (ses_buffer session_100))
  ∧ reachable (Fin 100) session_100
  ∧ (∃ out, computeVelocity (ses_buffer session_100) (Idx 0) (Fin 100) 1234
              = Some out
       ∧ exit out = ZeroElapsed ∧ velocity out = zero_velocity)
  ∧ ∃ out, mouseup session_100 1234 = Some out ∧ exit out ≠ EmptyBuffer.
Proof.
  assert (empty_slots (slots (ses_buffer session_100))) as He
    by (apply Forall_replicate; reflexivity).
  assert (reachable (Fin 100) session_100) as Hr
    by (apply reach_start; reflexivity).
  split; [exact He|]. split; [exact Hr|]. split.
  - destruct (proj1 C10_filtered_array_empty_only_without_index
                (ses_buffer session_100) (Idx 0) (Fin 100) 1234%Q 30
                eq_refl eq_refl)
      as (_ & out & Hout & _ & Hz).
    exists out. split; [exact Hout | exact (Hz He)].
  - destruct (proj2 C10_filtered_array_empty_only_without_index
                (Fin 100) session_100 1234%Q Hr) as (out & Hout & Hiff).
    exists out. split; [exact Hout|]. intros E.
    destruct (proj1 Hiff E) as [Hlen _]. discriminate Hlen.
Defined.

(** The session whose array has 2^32 - 1 holes, released before any
    move. *)
Lemma release_of_longest_array (N : nat) (msec : num) (now : Q) :
  Z.of_nat N = 4294967295%Z →
  new_Array (capacity msec) = Some (replicate N None) →
  ∃ s out,
    dragExitVelocity msec = Some s
    ∧ Z.of_nat (length (slots (ses_buffer s))) = 4294967295%Z
    ∧ anchor_index (ses_buffer s) (ses_i s)
      = Idx (length (slots (ses_buffer s)))
    ∧ compact (slots (add_anchor (ses_buffer s) (ses_i s) now)) = []
    ∧ mouseup s now = Some out
    ∧ exit out = EmptyBuffer
    ∧ velocity out = zero_velocity.
Proof.
  intros HZ Hn.
  assert (compact (slots (add_anchor (mkBuffer (replicate N None) None)
                            (Idx 0) now)) = []) as Hc.
  { apply compact_anchor_none; [by apply Forall_replicate|].
    intros k [= <-]. cbn [slots mkBuffer]. rewrite length_replicate.
    unfold array_index. rewrite HZ. apply Z.ltb_irrefl. }
  eexists _, _. split.
  { unfold dragExitVelocity. rewrite Hn. reflexivity. }
  cbn [ses_buffer ses_i slots mkBuffer].
  split; [by rewrite length_replicate|]. split; [reflexivity|].
  split; [exact Hc|].
  unfold mouseup, computeVelocity. cbn [ses_buffer ses_i]. rewrite Hc.
  split; [reflexivity|]. split; reflexivity.
Qed.

(** C10 (as the spec has it) fails: the session for a window of
    14316557650 ms has an array of 2^32 - 1 holes; released before any move,
    the anchor is written at [buffer[4294967295]], which is no array index,
    the filtered array is empty and the [return] of the empty array is
    taken. *)
Lemma C10_empty_array_return_reached :
  ∃ s out,
    dragExitVelocity (Fin 14316557650) = Some s
    ∧ Z.of_nat (length (slots (ses_buffer s))) = 4294967295%Z
    ∧ anchor_index (ses_buffer s) (ses_i s)
      = Idx (length (slots (ses_buffer s)))
    ∧ compact (slots (add_anchor (ses_buffer s) (ses_i s) 0)) = []
    ∧ mouseup s 0 = Some out
    ∧ exit out = EmptyBuffer
    ∧ velocity out = zero_velocity.
Proof.
  apply (release_of_longest_array (Z.to_nat 4294967295) (Fin 14316557650) 0).
  - by apply Z2Nat.id.
  - exact longest_array.
Qed.

(** * The recorder *)

Lemma start_fails_iff (q : Q) :
  dragExitVelocity (Fin q) = None ↔ (q < -5 ∨ 14316557655 <= q)%Q.
Proof.
  unfold dragExitVelocity. rewrite capacity_finite, new_Array_integer.
  set (z := Qfloor (q / 10 + (1 # 2))).
  assert (q / 10 == q * (1 # 10))%Q as Hdiv by (unfold Qdiv; reflexivity).
  assert ((0 ≤ z)%Z ↔ (-5 <= q)%Q) as H0.
  { unfold z. rewrite (Qfloor_ge_iff 0). change (inject_Z 0) with 0%Q.
    rewrite Hdiv. split; intros; lra. }
  assert ((1431655766 ≤ z)%Z ↔ (14316557655 <= q)%Q) as H1.
  { unfold z. rewrite (Qfloor_ge_iff 1431655766).
    change (inject_Z 1431655766) with 1431655766%Q.
    rewrite Hdiv. split; intros; lra. }
  destruct (0 <=? z * 3)%Z eqn:Ea; simpl.
  - destruct (z * 3 <? 2 ^ 32)%Z eqn:Eb; simpl.
    + split; [done|]. intros [Hq|Hq].
      * assert (¬ (-5 <= q)%Q) as Hn by lra. rewrite <- H0 in Hn. lia.
      * rewrite <- H1 in Hq. lia.
    + split; [|done]. intros _. right. apply H1. lia.
  - split; [|done]. intros _. left.
    assert (¬ (-5 <= q)%Q) as Hn by (rewrite <- H0; lia). lra.
Qed.

(** In every state of a session a move is written where the cursor is. *)
Lemma move_recorded msec s x y t :
  reachable msec s →
  read (ses_buffer (mousemove s x y t)) (ses_i s)
  = Some {| pos_x := x; pos_y := y; time := Fin t |}.
Proof.
  intros (_ & Hcap & Hinv)%reachable_inv. cbn [mousemove ses_buffer].
  destruct (ses_i s) as [n|]; [|done].
  apply read_write. left.
  apply (slot_is_array_index msec (ses_len s) n Hcap). lia.
Qed.

(** C6 (as the code has it): nothing validates the window.  [msec] is
    converted to a number where it is used; the session fails to start
    exactly when the conversion throws (a Symbol, a BigInt) or
    [Math.round(msec / 10) * 3] is not an array length: the number is [NaN]
    (as for [undefined]), infinite, below -5, or 14316557655 or more.  For
    every other value, zero, the negative numbers down to -5 and [null]
    included, the session starts, and in every state it then goes through a
    move is recorded where the cursor is and a release delivers an
    estimate. *)
Theorem C6_start_fails_only_without_array
    (StringToNumber : String.string → num) (v : Value) :
  (start StringToNumber v = None ↔
    match ToNumber StringToNumber v with
    | Some (Fin q) => (q < -5 ∨ 14316557655 <= q)%Q
    | _ => True
    end)
  ∧ (∀ s0 s,
      start StringToNumber v = Some s0 →
      reachable (ses_msec s0) s →
      (∀ x y t,
         read (ses_buffer (mousemove s x y t)) (ses_i s)
         = Some {| pos_x := x; pos_y := y; time := Fin t |}
         ∧ reachable (ses_msec s0) (mousemove s x y t))
      ∧ ∀ now, is_Some (mouseup s now)).
Proof.
  split.
  - unfold start.
    destruct (ToNumber StringToNumber v) as [[q| | |]|]; simpl; try done.
    apply start_fails_iff.
  - intros s0 s _ Hr. split.
    + intros x y t. split; [by apply (move_recorded (ses_msec s0))|].
      by apply reach_move.
    + intros now. apply computeVelocity_total.
Qed.

Lemma C6_start_fails_only_without_array_witness :
  start (λ _, NaN) (VNumber (Fin (-6))) = None
  ∧ start (λ _, NaN) VUndefined = None
  ∧ start (λ _, NaN) (VNumber (Fin 100)) = Some session_100
  ∧ read (ses_buffer (mousemove (mousemove session_100 (Fin 3) (Fin 4) 7)
                        (Fin 5) (Fin 6) 8)) (Idx 1)
    = Some (sample 5 6 8)
  ∧ is_Some (mouseup (mousemove session_100 (Fin 3) (Fin 4) 7) 9).
Proof.
  assert (reachable (Fin 100) (mousemove session_100 (Fin 3) (Fin 4) 7))
    as Hr by (apply reach_move, reach_start; reflexivity).
  split; [|split; [|split; [reflexivity|split]]].
  - apply (proj1 (C6_start_fails_only_without_array (λ _, NaN)
                    (VNumber (Fin (-6))))).
    left. reflexivity.
  - by apply (proj1 (C6_start_fails_only_without_array (λ _, NaN)
                       VUndefined)).
  - apply (proj2 (C6_start_fails_only_without_array (λ _, NaN)
                    (VNumber (Fin 100)))
             session_100 _ eq_refl Hr).
  - apply (proj2 (C6_start_fails_only_without_array (λ _, NaN)
                    (VNumber (Fin 100)))
             session_100 _ eq_refl Hr).
Defined.

(** C6 (as the spec has it) fails: a window of 0 ms, one of -3 ms, and the
    value [null] are not rejected; the session starts, a move is recorded
    and the release delivers an estimate. *)
Lemma C6_zero_window_not_rejected :
  dragExitVelocity (Fin 0) = Some session_0
  ∧ slots (ses_buffer (mousemove session_0 (Fin 3) (Fin 4) 7))
    = [Some (sample 3 4 7)]
  ∧ velocity <$> mouseup (mousemove session_0 (Fin 3) (Fin 4) 7) 9
    = Some zero_velocity
  ∧ ses_buffer <$> dragExitVelocity (Fin (-3)) = Some (mkBuffer [] None)
  ∧ ∀ StringToNumber, start StringToNumber VNull = Some session_0.
Proof. repeat split; reflexivity. Qed.

(** C7 (as the code has it): while the capacity is not 0 the array keeps
    the length it was created with, every move is written below it and the
    cursor advances modulo the capacity.  At release the anchor goes to the
    cursor when the cursor is not 0, and to [buffer.length], one past the
    last slot, when it is 0: the array then grows by one element, unless it
    has 2^32 - 1 elements already, when [buffer.length] is no array index,
    the anchor is a plain property of the array and the length is kept. *)
Theorem C7_capacity_kept_until_anchor (msec : num) (s : Session) (now : Q) :
  reachable msec s →
  0 < ses_len s →
  new_Array (capacity msec) = Some (replicate (ses_len s) None)
  ∧ length (slots (ses_buffer s)) = ses_len s
  ∧ ∃ n, ses_i s = Idx n ∧ n < ses_len s
      ∧ (∀ x y t,
          length (slots (ses_buffer (mousemove s x y t))) = ses_len s
          ∧ ses_i (mousemove s x y t) = Idx ((n + 1) mod ses_len s))
      ∧ (n ≠ 0 →
          anchor_index (ses_buffer s) (ses_i s) = Idx n
          ∧ length (slots (add_anchor (ses_buffer s) (ses_i s) now))
            = ses_len s)
      ∧ (n = 0 →
          anchor_index (ses_buffer s) (ses_i s) = Idx (ses_len s)
          ∧ (array_index (ses_len s) = true →
               length (slots (add_anchor (ses_buffer s) (ses_i s) now))
               = S (ses_len s))
          ∧ (array_index (ses_len s) = false →
               Z.of_nat (ses_len s) = 4294967295%Z
               ∧ length (slots (add_anchor (ses_buffer s) (ses_i s) now))
                 = ses_len s
               ∧ ∃ a, read (add_anchor (ses_buffer s) (ses_i s) now)
                        (Idx (ses_len s)) = Some a
                   ∧ time a = Fin now)).
Proof.
  intros (_ & Hcap & Hinv)%reachable_inv Hpos.
  split; [done|].
  destruct (new_Array_length _ _ Hcap) as [_ Hbound].
  rewrite length_replicate in Hbound.
  destruct (ses_i s) as [n|] eqn:Hi; [|lia].
  destruct Hinv as [Hlen Hn]. split; [done|].
  exists n. split; [done|]. split; [lia|].
  assert (array_index n = true) as Han
    by (apply (slot_is_array_index msec (ses_len s) n Hcap); lia).
  split; [|split].
  - intros x y t. cbn [mousemove ses_buffer ses_i]. rewrite Hi.
    rewrite slots_write, Han, store_length.
    split; [lia|]. cbn [advance]. destruct (ses_len s); [lia|done].
  - intros Hne. destruct n as [|n]; [done|]. split; [done|].
    rewrite (slots_add_anchor_index (ses_buffer s) (Idx (S n)) now (S n)
               eq_refl Han), store_length.
    lia.
  - intros ->. cbn [anchor_index]. rewrite Hlen. split; [done|].
    assert (anchor_index (ses_buffer s) (Idx 0) = Idx (ses_len s)) as Hk
      by (cbn [anchor_index]; by rewrite Hlen).
    split.
    + intros Ha. rewrite (slots_add_anchor_index _ _ now _ Hk Ha).
      rewrite store_length. lia.
    + intros Ha. split; [|split].
      * unfold array_index in Ha. apply Z.ltb_ge in Ha. lia.
      * by rewrite (slots_add_anchor_prop _ _ now _ Hk Ha).
      * unfold add_anchor. rewrite Hk.
        exists (set_time (extend (read_before (ses_buffer s)
                                    (Idx (ses_len s)))) (Fin now)).
        split; [|reflexivity]. apply read_write. right. lia.
Qed.

Lemma C7_capacity_kept_until_anchor_witness :
  reachable (Fin 100) (mousemove session_100 (Fin 3) (Fin 4) 7)
  ∧ 0 < ses_len (mousemove session_100 (Fin 3) (Fin 4) 7)
  ∧ length (slots (ses_buffer (mousemove session_100 (Fin 3) (Fin 4) 7)))
    = 30.
Proof.
  assert (reachable (Fin 100) (mousemove session_100 (Fin 3) (Fin 4) 7))
    as Hr by (apply reach_move, reach_start; reflexivity).
  assert (0 < ses_len (mousemove session_100 (Fin 3) (Fin 4) 7)) as Hl
    by (simpl; lia).
  split; [exact Hr|]. split; [exact Hl|].
  exact (proj1 (proj2 (C7_capacity_kept_until_anchor (Fin 100)
                         (mousemove session_100 (Fin 3) (Fin 4) 7) 9%Q
                         Hr Hl))).
Defined.

(** C7 (as the spec has it) fails: released before any move, the session
    for 100 ms, of capacity 30, writes the anchor at index 30, and the array
    has 31 elements afterwards. *)
Lemma C7_anchor_written_at_capacity :
  dragExitVelocity (Fin 100) = Some session_100
  ∧ capacity (Fin 100) = Fin 30
  ∧ anchor_index (ses_buffer session_100) (ses_i session_100) = Idx 30
  ∧ length (slots (add_anchor (ses_buffer session_100) (ses_i session_100) 9))
    = 31
  ∧ ¬ (∃ k, anchor_index (ses_buffer session_100) (ses_i session_100) = Idx k
          ∧ k < ses_len session_100).
Proof.
  repeat split; try reflexivity.
  intros (k & [= <-] & Hk). simpl in Hk. lia.
Qed.

(** * The clock and the caller's array *)

Lemma store_ext l1 l2 k v :
  length l1 = length l2 →
  (∀ q, q ≠ k → l1 !! q = l2 !! q) →
  store l1 k v = store l2 k v.
Proof.
  intros Hlen Hagree. unfold store. rewrite Hlen.
  destruct (decide (k < length l2)) as [Hk|Hk].
  - apply list_eq. intros j. destruct (decide (j = k)) as [->|Hne].
    + by rewrite !list_lookup_insert_eq by lia.
    + rewrite !list_lookup_insert_ne by done. by apply Hagree.
  - assert (l1 = l2) as ->; [|done].
    apply list_eq. intros j. destruct (decide (j = k)) as [->|Hne].
    + by rewrite !lookup_ge_None_2 by lia.
    + by apply Hagree.
Qed.

(** The velocity and the [return] taken are functions of the elements of
    the array after lines 123-125. *)
Lemma computeVelocity_of_slots b1 b2 i1 i2 msec now1 now2 :
  slots (add_anchor b1 i1 now1) = slots (add_anchor b2 i2 now2) →
  ∃ out1 out2,
    computeVelocity b1 i1 msec now1 = Some out1
    ∧ computeVelocity b2 i2 msec now2 = Some out2
    ∧ velocity out1 = velocity out2 ∧ exit out1 = exit out2.
Proof.
  intros E. unfold computeVelocity. rewrite E.
  destruct (compact _) as [|o l]; [by eexists _, _|].
  destruct (trailing_edge _ msec) as [[bf m]|] eqn:Ht.
  - destruct (trailing_edge_head _ _ _ _ Ht) as [mr Hmr].
    cbn [mbind option_bind]. rewrite Hmr. cbn [mbind option_bind].
    by eexists _, _.
  - by destruct (trailing_edge_total (sort by_time_desc (o :: l)) msec)
      as [? ?]; [intros E'; apply (f_equal length) in E';
                 rewrite sort_length in E'|congruence].
Qed.

(** C3 (as the code has it): the estimate is a function of the elements of
    the array other than the one the anchor replaces, of the cursor, of the
    window and of the time of the release that [new Date()] reads.  Two
    arrays of the same length that agree on these elements give the same
    velocity through the same [return], whatever the element under the
    anchor and the other properties of the two arrays are. *)
Theorem C3_estimate_from_samples_and_clock
    (b1 b2 : Buffer) (i : Cursor) (msec : num) (now : Q) :
  length (slots b1) = length (slots b2) →
  (∀ q, ¬ overwritten b1 i q → slots b1 !! q = slots b2 !! q) →
  ∃ out1 out2,
    computeVelocity b1 i msec now = Some out1
    ∧ computeVelocity b2 i msec now = Some out2
    ∧ velocity out1 = velocity out2
    ∧ exit out1 = exit out2.
Proof.
  intros Hlen Hagree. apply computeVelocity_of_slots.
  assert (anchor_index b2 i = anchor_index b1 i) as Hidx
    by (destruct i as [[|n]|]; simpl; congruence).
  rewrite !slots_add_anchor, Hidx. unfold overwritten in Hagree.
  assert ((∀ k, ¬ (anchor_index b1 i = Idx k ∧ array_index k = true)) →
          slots b1 = slots b2) as Hall.
  { intros Hno. apply list_eq. intros q. apply Hagree, Hno. }
  destruct (anchor_index b1 i) as [k|] eqn:Hk.
  - destruct (array_index k) eqn:Ha.
    + assert (read_before b1 (Idx k) = read_before b2 (Idx k)) as ->.
      { destruct k as [|q]; [done|]. cbn [read_before read].
        rewrite <- (Hagree q) by (intros [[= ?] _]; lia).
        destruct (slots b1 !! q); [done|].
        by rewrite (array_index_le q (S q)) by (done || lia). }
      apply store_ext; [done|]. intros q Hq. apply Hagree.
      intros [[= ?] _]. done.
    + apply Hall. intros q [[= ->] Hq]. congruence.
  - apply Hall. by intros q [? _].
Qed.

Lemma C3_estimate_from_samples_and_clock_witness :
  ∃ out1 out2,
    computeVelocity buffer_A (Idx 2) (Fin 100) 150 = Some out1
    ∧ computeVelocity
        {| slots := <[2 := Some (sample 99 98 97)]> (slots buffer_A);
           prop_NaN := Some (sample 1 2 3);
           prop_num := [(7, sample 4 5 6)] |}
        (Idx 2) (Fin 100) 150 = Some out2
    ∧ velocity out1 = velocity out2
    ∧ exit out1 = exit out2.
Proof.
  apply (C3_estimate_from_samples_and_clock buffer_A
           {| slots := <[2 := Some (sample 99 98 97)]> (slots buffer_A);
              prop_NaN := Some (sample 1 2 3);
              prop_num := [(7, sample 4 5 6)] |}
           (Idx 2) (Fin 100) 150%Q).
  - reflexivity.
  - intros q Hq. cbn [slots]. apply eq_sym, list_lookup_insert_ne.
    intros <-. apply Hq. split; reflexivity.
Defined.

(** C3 (as the spec has it) fails: the same buffer, cursor and window give
    100 px/s when released at time 100 and 0 px/s when released at 150. *)
Lemma C3_estimate_reads_the_clock :
  ∃ v1 v2,
    velocity <$> computeVelocity buffer_A (Idx 2) (Fin 100) 100 = Some v1
    ∧ velocity <$> computeVelocity buffer_A (Idx 2) (Fin 100) 150 = Some v2
    ∧ num_eqb (Vx v1) (Fin 100) = true
    ∧ num_eqb (Vx v2) (Fin 0) = true
    ∧ velocity_eqb v1 v2 = false.
Proof. do 2 eexists. repeat split; reflexivity. Qed.

Lemma read_write_back_ne b m k :
  k ≠ m.1 → read (write_back b m) (Idx k) = read b (Idx k).
Proof.
  intros Hne. cbn [read write_back slots prop_num].
  by rewrite list_lookup_insert_ne.
Qed.

Lemma read_add_anchor_ne b i now k :
  Idx k ≠ anchor_index b i →
  read (add_anchor b i now) (Idx k) = read b (Idx k).
Proof.
  intros Hne. unfold add_anchor.
  destruct (anchor_index b i) as [a|]; [|done].
  apply read_write_ne. congruence.
Qed.

(** C9 (as the code has it): a release replaces the slot at the anchor index
    and writes the fields of at most one more sample, the boundary sample
    that [interpolateTrailingEdge] returns, in place in the caller's array;
    every other slot reads as before. *)
Theorem C9_only_boundary_sample_rewritten
    (b : Buffer) (i : Cursor) (msec : num) (now : Q) (out : Outcome) :
  computeVelocity b i msec now = Some out →
  ∃ boundary : nat,
    (exit out = EmptyBuffer
     ∨ ∃ buffer' mintime,
         trailing_edge (sorted_samples b i now) msec = Some (buffer', mintime)
         ∧ boundary = mintime.1
         ∧ read (buffer_after out) (Idx boundary) = Some mintime.2)
    ∧ ∀ k, Idx k ≠ anchor_index b i → k ≠ boundary →
        read (buffer_after out) (Idx k) = read b (Idx k).
Proof.
  unfold computeVelocity, sorted_samples.
  destruct (compact _) as [|o l] eqn:Hc.
  - intros [= <-]. exists 0. split; [by left|]. simpl. intros k Hk _.
    by apply read_add_anchor_ne.
  - destruct (trailing_edge _ msec) as [[buffer' m]|] eqn:Ht; [|done]. simpl.
    destruct (buffer' !! 0) as [mr|]; [|done]. intros [= <-].
    cbn [buffer_after exit]. exists m.1. split.
    + right. exists buffer', m. split; [done|]. split; [done|].
      apply read_slot. cbn [write_back slots].
      rewrite list_lookup_insert_eq; [done|].
      (* the boundary object sits in a slot of the array *)
      destruct (sort by_time_desc (o :: l)) as [|mr0 rest] eqn:Hs; [done|].
      unfold trailing_edge in Ht. simpl in Ht.
      destruct (scan _ rest 1 mr0) as [j m'].
      apply interpolate_inv in Ht as (b0 & Hb0 & -> & _).
      assert (b0 ∈ compact (slots (add_anchor b i now))) as Hin.
      { rewrite Hc, <- (sort_perm by_time_desc (o :: l)), Hs.
        by apply list_elem_of_lookup_2 in Hb0. }
      apply compact_elem in Hin. by apply lookup_lt_Some in Hin.
    + intros k Hk Hne.
      change (read (write_back (add_anchor b i now) m) (Idx k)
              = read b (Idx k)).
      rewrite <- (read_add_anchor_ne b i now k Hk).
      by apply read_write_back_ne.
Qed.

Lemma C9_only_boundary_sample_rewritten_witness :
  ∃ out, computeVelocity buffer_C (Idx 3) (Fin 80) 100 = Some out
    ∧ read (buffer_after out) (Idx 0) = read buffer_C (Idx 0)
    ∧ read (buffer_after out) (Idx 2) = read buffer_C (Idx 2).
Proof.
  destruct (computeVelocity_total buffer_C (Idx 3) (Fin 80) 100) as [out Hout].
  exists out. split; [exact Hout|].
  destruct (C9_only_boundary_sample_rewritten buffer_C (Idx 3) (Fin 80)
              100%Q out Hout) as (bd & [He|(b' & m & Ht & -> & _)] & Hframe).
  - vm_compute in Hout. injection Hout as <-. discriminate He.
  - vm_compute in Ht. injection Ht as _ <-.
    split; apply Hframe; simpl; congruence.
Defined.

(** C9 (as the spec has it) fails: the release at time 100 with a window of
    80 ms rewrites the recorded sample (10, 0, t = 40) of slot 1, which is
    not the anchor's slot, into (5, 0, t = 20). *)
Lemma C9_recorded_sample_rewritten :
  ∃ out s,
    computeVelocity buffer_C (Idx 3) (Fin 80) 100 = Some out
    ∧ anchor_index buffer_C (Idx 3) = Idx 3
    ∧ read buffer_C (Idx 1) = Some (sample 10 0 40)
    ∧ read (buffer_after out) (Idx 1) = Some s
    ∧ num_eqb (pos_x s) (Fin 5) = true
    ∧ num_eqb (pos_y s) (Fin 0) = true
    ∧ num_eqb (time s) (Fin 20) = true.
Proof. do 2 eexists. repeat split; reflexivity. Qed.

(** * The first element of the sorted array *)

Lemma nlt_Fin p q : nlt (Fin p) (Fin q) = true ↔ (p < q)%Q.
Proof.
  simpl. rewrite Qlt_alt. destruct (p ?= q)%Q; split; congruence.
Qed.

Lemma nlt_asym a b : nlt a b = true → nlt b a = false.
Proof.
  destruct a as [p| | |], b as [q| | |]; simpl; try done.
  rewrite <- (Qcompare_antisym p q). by destruct (p ?= q)%Q.
Qed.

Lemma sort_insert_after a x rest :
  older_than a x →
  sort_insert by_time_desc x (a :: rest)
  = a :: sort_insert by_time_desc x rest.
Proof.
  intros [Hne Hlt]. simpl. unfold by_time_desc.
  destruct (Nat.eqb_spec x.1 a.1) as [|_]; [done|].
  by rewrite (nlt_asym _ _ Hlt).
Qed.

Lemma sort_insert_before a acc :
  Forall (older_than a) acc → sort_insert by_time_desc a acc = a :: acc.
Proof.
  intros H. destruct H as [|e acc [Hne Hlt] _]; [done|].
  simpl. unfold by_time_desc.
  destruct (Nat.eqb_spec a.1 e.1) as [E|_]; [by symmetry in E|].
  by rewrite Hlt.
Qed.

Lemma sort_into_keeps_head a rest l :
  Forall (older_than a) l →
  head (sort_into by_time_desc (a :: rest) l) = Some a.
Proof.
  intros H. revert rest. induction H as [|x l Hx _ IH]; intros rest; [done|].
  change (head (sort_into by_time_desc
                  (sort_insert by_time_desc x (a :: rest)) l) = Some a).
  rewrite sort_insert_after by done. apply IH.
Qed.

Lemma sort_into_head_latest a acc l1 l2 :
  Forall (older_than a) acc →
  Forall (older_than a) l1 →
  Forall (older_than a) l2 →
  head (sort_into by_time_desc acc (l1 ++ a :: l2)) = Some a.
Proof.
  intros Hacc H1 H2. revert acc Hacc.
  induction H1 as [|x l1 Hx _ IH]; intros acc Hacc.
  - change (head (sort_into by_time_desc
                    (sort_insert by_time_desc a acc) l2) = Some a).
    rewrite sort_insert_before by done. by apply sort_into_keeps_head.
  - apply IH. rewrite sort_insert_perm. by constructor.
Qed.

(** The filtered array after a write at slot [k]. *)
Lemma compact_store l k a :
  ∃ c1 c2,
    compact (store l k a) = c1 ++ (k, a) :: c2
    ∧ ∀ o, o ∈ c1 ++ c2 → o.1 ≠ k ∧ l !! o.1 = Some (Some o.2).
Proof.
  exists (compact_from 0 (take k (l ++ replicate (k - length l) None))),
    (compact_from (S k) (drop (S k) l)).
  assert (length (take k (l ++ replicate (k - length l) None)) = k) as Hk.
  { rewrite length_take, length_app, length_replicate. lia. }
  split.
  - rewrite store_split. unfold compact.
    rewrite compact_from_app. simpl. by rewrite Hk.
  - intros o [Ho|Ho]%elem_of_app; apply compact_from_elem in Ho as [Hle Ho].
    + rewrite Nat.sub_0_r in Ho. apply lookup_take_Some in Ho as [Ho Hlt].
      split; [lia|].
      apply lookup_app_Some in Ho as [Ho|[_ Ho]]; [done|].
      by apply lookup_replicate in Ho as [? _].
    + split; [lia|]. rewrite lookup_drop in Ho.
      by replace (S k + (o.1 - S k)) with o.1 in Ho by lia.
Qed.

(** C8 (as the code has it): when the cursor is a number and the time of
    the release is strictly later than the time of every sample in the other
    slots, the first element of the sorted array is the anchor, provided the
    anchor is written at an array index; otherwise (cursor 0 and an array of
    2^32 - 1 elements) the anchor is a plain property of the array, and the
    sorted array is that of the recorded samples, without the anchor. *)
Theorem C8_anchor_first_when_strictly_latest
    (b : Buffer) (n k : nat) (now : Q) :
  anchor_index b (Idx n) = Idx k →
  (∀ r s, r ≠ k → slots b !! r = Some (Some s) →
     nlt (time s) (Fin now) = true) →
  (array_index k = true →
     head (sorted_samples b (Idx n) now)
     = Some (k, set_time (extend (read_before b (Idx k))) (Fin now)))
  ∧ (array_index k = false →
     sorted_samples b (Idx n) now = sort by_time_desc (compact (slots b))).
Proof.
  intros Hk Hold. unfold sorted_samples. split; intros Ha.
  - rewrite (slots_add_anchor_index b (Idx n) now k Hk Ha).
    set (a := set_time (extend (read_before b (Idx k))) (Fin now)).
    destruct (compact_store (slots b) k a) as (c1 & c2 & -> & Hc).
    assert (∀ c, c ⊆ c1 ++ c2 → Forall (older_than (k, a)) c) as Hall.
    { intros c Hsub. apply Forall_forall. intros o Ho.
      destruct (Hc o (Hsub o Ho)) as [Hne Hl].
      split; [done|]. simpl. by apply (Hold o.1). }
    apply sort_into_head_latest.
    + constructor.
    + apply Hall. intros o Ho. apply elem_of_app. by left.
    + apply Hall. intros o Ho. apply elem_of_app. by right.
  - by rewrite (slots_add_anchor_prop b (Idx n) now k Hk Ha).
Qed.

Lemma C8_anchor_first_when_strictly_latest_witness :
  anchor_index buffer_A (Idx 2) = Idx 2
  ∧ head (sorted_samples buffer_A (Idx 2) 150) = Some (2, sample 10 0 150).
Proof.
  split; [reflexivity|].
  apply (C8_anchor_first_when_strictly_latest buffer_A 2 2 150%Q).
  - reflexivity.
  - intros r s Hr Hs.
    destruct r as [|[|r]]; simpl in Hs.
    + injection Hs as <-. reflexivity.
    + injection Hs as <-. reflexivity.
    + destruct r as [|r]; [congruence|].
      apply (lookup_replicate_1 27 None (Some s) r) in Hs as [Hs _].
      discriminate Hs.
  - reflexivity.
Defined.

(** C8 (as the spec has it) fails.  With two moves in the millisecond of the
    release, the sorted array starts with the recorded sample of slot 0, at
    x = 0, while the anchor, the object of slot 2 at x = 10, comes last;
    and a release stamped before the last move leaves the anchor behind
    that move. *)
Lemma C8_anchor_not_first :
  anchor_index buffer_tie (Idx 2) = Idx 2
  ∧ sorted_samples buffer_tie (Idx 2) 100
    = [(0, sample 0 0 100); (1, sample 10 0 100); (2, sample 10 0 100)]
  ∧ head (sorted_samples buffer_tie (Idx 2) 100) ≠ Some (2, sample 10 0 100)
  ∧ sorted_samples buffer_A (Idx 2) 50
    = [(1, sample 10 0 100); (2, sample 10 0 50); (0, sample 0 0 0)].
Proof. repeat split; try reflexivity. discriminate. Qed.

(** * Arithmetic on finite numbers *)

Lemma nsub_Fin p q : nsub (Fin p) (Fin q) = Fin (p - q).
Proof. reflexivity. Qed.

Lemma nadd_Fin p q : nadd (Fin p) (Fin q) = Fin (p + q).
Proof. reflexivity. Qed.

Lemma nmul_Fin p q : nmul (Fin p) (Fin q) = Fin (p * q).
Proof. reflexivity. Qed.

Lemma nneg_Fin p : nneg (Fin p) = Fin (- p).
Proof. reflexivity. Qed.

Lemma nabs_Fin p : nabs (Fin p) = Fin (Qabs p).
Proof. reflexivity. Qed.

Lemma ndiv_Fin p q : ¬ (q == 0)%Q → ndiv (Fin p) (Fin q) = Fin (p / q).
Proof.
  intros Hq. unfold ndiv. rewrite Qeq_alt in Hq. by destruct (q ?= 0)%Q.
Qed.

Lemma nlt_Fin_false p q : nlt (Fin p) (Fin q) = false ↔ (q <= p)%Q.
Proof.
  rewrite <- not_true_iff_false, nlt_Fin. split; intros; lra.
Qed.

Create Rewrite HintDb num.
#[local] Hint Rewrite nsub_Fin nadd_Fin nmul_Fin nneg_Fin nabs_Fin : num.


(** * The interpolation *)




(** * The order of the sorted array *)

Lemma compact_from_NoDup k l : NoDup (compact_from k l).*1.
Proof.
  revert k. induction l as [|[s|] l IH]; intros k; simpl; [constructor| |done].
  constructor; [|done].
  intros (o & Ho1 & [Hle _]%compact_from_elem)%list_elem_of_fmap.
  simpl in Ho1. lia.
Qed.

Lemma sort_insert_sorted a l :
  StronglySorted not_before l →
  fin_time a → Forall fin_time l → a.1 ∉ l.*1 →
  StronglySorted not_before (sort_insert by_time_desc a l).
Proof.
  intros Hs [ta Hta] Hf Hid.
  induction Hs as [|e l Hs IH He]; simpl.
  - repeat constructor.
  - apply Forall_cons in Hf as [[te Hte] Hf].
    rewrite fmap_cons, not_elem_of_cons in Hid. destruct Hid as [Hne Hid].
    unfold by_time_desc.
    destruct (Nat.eqb_spec a.1 e.1) as [|_]; [done|].
    rewrite Hte, Hta.
    destruct (nlt (Fin te) (Fin ta)) eqn:Hlt; simpl.
    + apply nlt_Fin in Hlt.
      constructor; [by constructor|]. constructor.
      * exists ta, te. repeat split; [done..|lra].
      * eapply Forall_impl; [exact He|].
        intros x (te' & tx & Hte' & Htx & Hle).
        exists ta, tx. repeat split; [done..|].
        rewrite Hte in Hte'. injection Hte' as <-. lra.
    + apply nlt_Fin_false in Hlt.
      constructor; [by apply IH|].
      rewrite sort_insert_perm. constructor; [|done].
      exists te, ta. by repeat split.
Qed.

Lemma sort_into_sorted acc l :
  StronglySorted not_before acc →
  Forall fin_time (acc ++ l) → NoDup (acc ++ l).*1 →
  StronglySorted not_before (sort_into by_time_desc acc l).
Proof.
  revert acc. induction l as [|a l IH]; intros acc Hs Hf Hnd; simpl; [done|].
  assert (sort_insert by_time_desc a acc ++ l ≡ₚ acc ++ a :: l) as Hp.
  { rewrite sort_insert_perm. simpl. apply Permutation_middle. }
  apply IH.
  - apply Forall_app in Hf as [Hfa Hfl]. apply Forall_cons in Hfl as [Ha _].
    apply sort_insert_sorted; [done..|].
    rewrite fmap_app, fmap_cons in Hnd.
    apply NoDup_app in Hnd as (_ & Hnd & _).
    intros Hin. apply (Hnd _ Hin). by left.
  - by rewrite Hp.
  - by rewrite Hp.
Qed.

Lemma sorted_samples_sorted b i now :
  Forall fin_time (sorted_samples b i now) →
  StronglySorted not_before (sorted_samples b i now).
Proof.
  intros Hf. unfold sorted_samples in *. rewrite sort_perm in Hf.
  apply sort_into_sorted; [constructor|done|apply compact_from_NoDup].
Qed.

(** Whatever the algorithm of the engine: when no two samples have the same
    time there is one arrangement by descending time, and it is the one
    [sort] computes. *)
Lemma sort_is_the_descending_order l s :
  Forall fin_time l → NoDup l.*1 → distinct_times l →
  s ≡ₚ l → StronglySorted not_before s →
  s = sort by_time_desc l.
Proof.
  intros Hf Hnd Hdist Hp Hs.
  apply (StronglySorted_unique_strong not_before).
  - intros a b Ha Hb (ta & tb & Hta & Htb & Hle) (tb' & ta' & Htb' & Hta' & Hge).
    rewrite Hta in Hta'. rewrite Htb in Htb'.
    injection Hta' as <-. injection Htb' as <-.
    rewrite Hp in Ha. rewrite sort_perm in Hb.
    apply (Hdist a b ta tb); [done..|lra].
  - done.
  - apply sort_into_sorted; [constructor|done..].
  - by rewrite sort_perm.
Qed.

(** The samples before the one the scan stops at are not before the limit;
    the one it stops at, if any, is. *)
Lemma scan_spec limit rest j0 m :
  (∀ p o, j0 + p < (scan limit rest j0 m).1 → rest !! p = Some o →
      nlt (time o.2) limit = false)
  ∧ (∀ o, rest !! ((scan limit rest j0 m).1 - j0) = Some o →
      nlt (time o.2) limit = true).
Proof.
  revert j0 m. induction rest as [|e rest IH]; intros j0 m; simpl.
  - split; intros; by rewrite ?lookup_nil in *.
  - destruct (nlt (time e.2) limit) eqn:He; simpl.
    + split; [intros; lia|]. rewrite Nat.sub_diag. by intros o [= <-].
    + assert (∀ m', (∀ p o, j0 + p < (scan limit rest (S j0) m').1 →
                  (e :: rest) !! p = Some o → nlt (time o.2) limit = false)
              ∧ (∀ o, (e :: rest) !! ((scan limit rest (S j0) m').1 - j0)
                        = Some o → nlt (time o.2) limit = true)) as Hstep.
      { intros m'. destruct (IH (S j0) m') as [IH1 IH2].
        pose proof (scan_bounds limit rest (S j0) m') as Hb. split.
        - intros [|p] o Hp; simpl; [by intros [= <-]|].
          apply IH1. lia.
        - intros o.
          replace ((scan limit rest (S j0) m').1 - j0)
            with (S ((scan limit rest (S j0) m').1 - S j0)) by lia.
          apply IH2. }
      destruct (nlt (time e.2) (time m.2)); apply Hstep.
Qed.

(** * The boundary sample *)


Lemma trailing_edge_cons mr rest msec :
  trailing_edge (mr :: rest) msec
  = interpolateTrailingEdge (mr :: rest)
      ((scan (nsub (time mr.2) msec) rest 1 mr).1 - 1) msec (Fin 50).
Proof.
  unfold trailing_edge. simpl. by destruct (scan _ rest 1 mr).
Qed.

Lemma interpolate_cases s k msec thr buffer' m :
  interpolateTrailingEdge s k msec thr = Some (buffer', m) →
  ∃ mr b,
    s !! 0 = Some mr ∧ s !! k = Some b
    ∧ ((m = b ∧ buffer' = s
        ∧ ∀ tr, s !! S k = Some tr →
            nlt (nsub (time b.2) (time tr.2)) thr = false)
       ∨ ∃ tr, s !! S k = Some tr
           ∧ nlt (nsub (time b.2) (time tr.2)) thr = true
           ∧ m = (b.1, weighted mr.2 b.2 tr.2 msec)
           ∧ buffer' = <[k := m]> s).
Proof.
  unfold interpolateTrailingEdge.
  destruct (s !! 0) as [mr|]; [|done].
  destruct (s !! k) as [b|]; [|done]. cbn [mbind option_bind].
  intros H. exists mr, b. split; [done|]. split; [done|].
  destruct (s !! S k) as [tr|].
  - destruct (nlt _ thr) eqn:Hg.
    + right. exists tr. injection H as <- <-. by repeat split.
    + left. injection H as <- <-. repeat split. by intros ? [= <-].
  - left. injection H as <- <-. by repeat split.
Qed.

Lemma fin_time_qtime o : fin_time o → time o.2 = Fin (qtime o).
Proof. intros [t Ht]. unfold qtime. by rewrite Ht. Qed.





Lemma weighted_coord ax mr b tr msec :
  coord ax (weighted mr b tr msec)
  = nadd (nmul (nsub (Fin 1)
                  (ndiv (nabs (nsub (time b) (nsub (time mr) msec)))
                        (nsub (time b) (time tr))))
               (coord ax b))
         (nmul (nsub (Fin 1)
                  (ndiv (nabs (nsub (nsub (time mr) msec) (time tr)))
                        (nsub (time b) (time tr))))
               (coord ax tr)).
Proof. by destruct ax. Qed.


(** * The velocity *)









(** * Samples from before the window *)









(** The velocity as a function of the sorted array. *)
Lemma computeVelocity_velocity b i msec now :
  velocity <$> computeVelocity b i msec now
  = match compact (slots (add_anchor b i now)) with
    | [] => Some zero_velocity
    | _ =>
        '(buffer', mintime) ← trailing_edge (sorted_samples b i now) msec;
        mostrecent ← buffer' !! 0;
        Some (velocity_of mostrecent.2 mintime.2)
    end.
Proof.
  unfold computeVelocity, sorted_samples.
  destruct (compact _) as [|o l]; [done|].
  destruct (trailing_edge _ msec) as [[buffer' m]|]; [|done]. simpl.
  by destruct (buffer' !! 0).
Qed.



Lemma anchored_fin_time b i now :
  finite_times b → Forall fin_time (compact (slots (add_anchor b i now))).
Proof.
  intros Hfin. apply Forall_forall. intros o Ho.
  rewrite slots_add_anchor in Ho.
  assert (o ∈ compact (slots b) → fin_time o) as Hrec.
  { intros Ho'. apply compact_elem in Ho'. by apply (Hfin o.1 o.2). }
  destruct (anchor_index b i) as [k|]; [|by apply Hrec].
  destruct (array_index k); [|by apply Hrec].
  destruct (compact_store (slots b) k
              (set_time (extend (read_before b (Idx k))) (Fin now)))
    as (c1 & c2 & Hc & Helem).
  rewrite Hc in Ho. apply elem_of_app in Ho as [Ho|Ho].
  - apply (Hfin o.1 o.2), Helem, elem_of_app. by left.
  - apply elem_of_cons in Ho as [->|Ho]; [by exists now|].
    apply (Hfin o.1 o.2), Helem, elem_of_app. by right.
Qed.






Lemma buffer_F_finite : finite_times buffer_F.
Proof.
  intros q s Hq.
  do 6 (destruct q as [|q]; [simpl in Hq; try discriminate Hq;
                             injection Hq as <-; eexists; reflexivity|]).
  discriminate Hq.
Defined.




(** * [positionFromEvent] *)

Lemma nsub_zero a : num_eqb (nsub a (Fin 0)) a = true.
Proof. destruct a; simpl; try done. apply Qeq_bool_iff. lra. Qed.

(** X1: an event without element-relative offsets never makes
    [positionFromEvent] throw, whatever its target; and when the tracked
    element reports no offset either, the position is the raw page
    position. *)
Theorem X1_position_falls_back_to_page (evt : Event) :
  truthy (offsetX evt) = false →
  truthy (offsetY evt) = false →
  (∀ elem_offset, is_Some (positionFromEvent elem_offset evt))
  ∧ ∃ x y, positionFromEvent None evt = Some (x, y)
      ∧ num_eqb x (pageX evt) = true ∧ num_eqb y (pageY evt) = true.
Proof.
  intros Hx Hy. unfold positionFromEvent. rewrite Hx, Hy. simpl.
  split; [eauto|]. do 2 eexists. split; [done|]. split; apply nsub_zero.
Qed.

Lemma X1_position_falls_back_to_page_witness :
  ∃ x y, positionFromEvent None (mkEvent (Fin 120) (Fin 80) NaN NaN None)
         = Some (x, y)
    ∧ num_eqb x (Fin 120) = true ∧ num_eqb y (Fin 80) = true.
Proof.
  exact (proj2 (X1_position_falls_back_to_page
                  (mkEvent (Fin 120) (Fin 80) NaN NaN None)
                  eq_refl eq_refl)).
Defined.

(** X2: for an event whose page position is its target's offset plus its
    element-relative offset, the position is the page position minus the
    element's offset, whichever of the two branches computes it. *)
Theorem X2_position_of_consistent_event
    (px py ox oy tl tt el et : Q) :
  (px == tl + ox)%Q →
  (py == tt + oy)%Q →
  ∃ x y,
    positionFromEvent (Some (offset el et))
      (mkEvent (Fin px) (Fin py) (Fin ox) (Fin oy) (Some (offset tl tt)))
    = Some (Fin x, Fin y)
    ∧ (x == px - el)%Q ∧ (y == py - et)%Q.
Proof.
  intros Hx Hy. unfold positionFromEvent. simpl.
  destruct (negb (_ || _)); simpl; do 2 eexists; (split; [done|]);
    split; lra.
Qed.

Lemma X2_position_of_consistent_event_witness :
  ∃ x y,
    positionFromEvent (Some (offset 10 20))
      (mkEvent (Fin 120) (Fin 80) (Fin 20) (Fin 10) (Some (offset 100 70)))
    = Some (Fin x, Fin y)
    ∧ (x == 120 - 10)%Q ∧ (y == 80 - 20)%Q.
Proof.
  apply (X2_position_of_consistent_event 120 80 20 10 100 70 10 20);
    reflexivity.
Defined.

(** X3: with finite coordinates, moving the tracked element's offset by
    (dx, dy) moves every position by (-dx, -dy): an error in the element's
    offset is a constant error in the positions. *)
Theorem X3_position_shifts_with_element (evt : Event) (el et dx dy x y : Q) :
  positionFromEvent (Some (offset el et)) evt = Some (Fin x, Fin y) →
  ∃ x' y',
    positionFromEvent (Some (offset (el + dx) (et + dy))) evt
    = Some (Fin x', Fin y')
    ∧ (x' == x - dx)%Q ∧ (y' == y - dy)%Q.
Proof.
  unfold positionFromEvent. simpl.
  destruct (negb (_ || _)).
  - destruct (pageX evt) as [px| | |], (pageY evt) as [py| | |]; try done.
    simpl. intros [= <- <-]. do 2 eexists. split; [done|]. split; lra.
  - destruct (target_offset evt) as [[tl tt]|]; [|done]. simpl.
    destruct (offsetX evt) as [ox| | |], tl as [tl| | |]; try done;
      destruct (offsetY evt) as [oy| | |], tt as [tt| | |]; try done.
    simpl. intros [= <- <-]. do 2 eexists. split; [done|]. split; lra.
Qed.

Lemma X3_position_shifts_with_element_witness :
  ∃ x' y',
    positionFromEvent (Some (offset (10 + 3) (20 + 4)))
      (mkEvent (Fin 120) (Fin 80) (Fin 20) (Fin 10) (Some (offset 100 70)))
    = Some (Fin x', Fin y')
    ∧ (x' == (20 + (100 - 10)) - 3)%Q ∧ (y' == (10 + (70 - 20)) - 4)%Q.
Proof.
  apply (X3_position_shifts_with_element
           (mkEvent (Fin 120) (Fin 80) (Fin 20) (Fin 10)
              (Some (offset 100 70))) 10 20 3 4).
  reflexivity.
Defined.

(** * The circular buffer *)

Lemma start_state msec s0 :
  dragExitVelocity msec = Some s0 →
  ses_i s0 = Idx 0
  ∧ slots (ses_buffer s0) = replicate (ses_len s0) None
  ∧ prop_NaN (ses_buffer s0) = None
  ∧ ses_msec s0 = msec.
Proof.
  unfold dragExitVelocity.
  destruct (new_Array (capacity msec)) as [elems|] eqn:Hn; [|done].
  intros [= <-]. simpl. repeat split.
  unfold new_Array in Hn. destruct (capacity msec); try done.
  destruct (_ && _); [|done]. injection Hn as <-.
  by rewrite length_replicate.
Qed.

Lemma start_bound msec s0 :
  dragExitVelocity msec = Some s0 → (Z.of_nat (ses_len s0) ≤ 4294967295)%Z.
Proof.
  unfold dragExitVelocity.
  destruct (new_Array (capacity msec)) as [elems|] eqn:Hn; [|done].
  intros [= <-]. simpl. by apply new_Array_length in Hn as [_ ?].
Qed.

Lemma record_all_snoc s moves m :
  record_all s (moves ++ [m]) = mousemove (record_all s moves) m.1.1 m.1.2 m.2.
Proof. unfold record_all. by rewrite fold_left_app. Qed.

Lemma record_all_fixed s moves :
  ses_len (record_all s moves) = ses_len s
  ∧ ses_msec (record_all s moves) = ses_msec s.
Proof.
  induction moves as [|m moves IH] using rev_ind; [done|].
  rewrite record_all_snoc. simpl. exact IH.
Qed.

Lemma record_all_reachable msec s moves :
  reachable msec s → reachable msec (record_all s moves).
Proof.
  intros Hs. induction moves as [|m moves IH] using rev_ind; [done|].
  rewrite record_all_snoc. by apply reach_move.
Qed.

Lemma mod_distinct j n L : j < n → n < j + L → j mod L ≠ n mod L.
Proof.
  intros Hjn HnL E.
  assert (L ≠ 0) as HL by lia.
  pose proof (Nat.div_mod_eq j L) as Hj.
  pose proof (Nat.div_mod_eq n L) as Hn.
  rewrite E in Hj.
  assert (j / L < n / L) as Hq by nia.
  nia.
Qed.

(** The state after [moves] of a session that starts with [L] empty slots. *)
Lemma record_all_inv s0 L moves :
  ses_i s0 = Idx 0 →
  slots (ses_buffer s0) = replicate L None →
  ses_len s0 = L → 0 < L → (Z.of_nat L ≤ 4294967295)%Z →
  let s := record_all s0 moves in
  ses_i s = Idx (length moves mod L)
  ∧ length (slots (ses_buffer s)) = L
  ∧ (∀ j m, moves !! j = Some m → length moves ≤ j + L →
       slots (ses_buffer s) !! (j mod L) = Some (Some (datum_of m)))
  ∧ (∀ k, length moves ≤ k → k < L →
       slots (ses_buffer s) !! k = Some None).
Proof.
  intros Hi Hslots Hlen HL Hbound.
  induction moves as [|m moves IH] using rev_ind.
  - simpl. rewrite Hi, Hslots, length_replicate, Nat.Div0.mod_0_l.
    repeat split; [done|]. intros k _ Hk. by apply lookup_replicate_2.
  - destruct IH as (Hcur & Hlength & Hkept & Hfree).
    rewrite record_all_snoc. cbn [mousemove ses_i ses_buffer].
    destruct (record_all_fixed s0 moves) as [Hl _]. rewrite Hl, Hlen.
    rewrite Hcur, slots_write. rewrite length_app. cbn [length].
    set (n := length moves) in *.
    assert (n mod L < L) as Hlt by (apply Nat.mod_upper_bound; lia).
    assert (array_index (n mod L) = true) as ->
      by (unfold array_index; apply Z.ltb_lt; lia).
    assert (store (slots (ses_buffer (record_all s0 moves))) (n mod L)
              {| pos_x := m.1.1; pos_y := m.1.2; time := Fin m.2 |}
            = <[n mod L := Some (datum_of m)]>
                (slots (ses_buffer (record_all s0 moves)))) as ->.
    { unfold store. by rewrite decide_True by lia. }
    split; [|split; [|split]].
    + unfold advance. destruct L as [|L']; [lia|].
      by rewrite Nat.Div0.add_mod_idemp_l.
    + by rewrite length_insert.
    + intros j mj Hj Hwin.
      destruct (decide (j = n)) as [->|Hne].
      * rewrite lookup_app_r in Hj by done.
        replace (n - length moves) with 0 in Hj by (unfold n; lia).
        injection Hj as <-. apply list_lookup_insert_eq. lia.
      * assert (j < n) as Hjn.
        { apply lookup_lt_Some in Hj. rewrite length_app in Hj.
          simpl in Hj. fold n in Hj. lia. }
        rewrite lookup_app_l in Hj by done.
        rewrite list_lookup_insert_ne by (apply not_eq_sym, mod_distinct; lia).
        apply Hkept; [done|lia].
    + intros k Hk HkL.
      rewrite list_lookup_insert_ne by (rewrite Nat.mod_small; lia).
      apply Hfree; lia.
Qed.

(** X4: in a session of capacity L > 0 the buffer is circular: after n
    moves the cursor is n mod L, the array still has L slots, the last
    min(n, L) moves are there, move j in slot j mod L, and the slots no move
    has reached are empty. *)
Theorem X4_buffer_keeps_last_moves
    (msec : num) (s0 : Session) (moves : list Move) :
  dragExitVelocity msec = Some s0 →
  0 < ses_len s0 →
  let s := record_all s0 moves in
  ses_i s = Idx (length moves mod ses_len s0)
  ∧ length (slots (ses_buffer s)) = ses_len s0
  ∧ (∀ j m, moves !! j = Some m → length moves ≤ j + ses_len s0 →
       read (ses_buffer s) (Idx (j mod ses_len s0)) = Some (datum_of m))
  ∧ (∀ k, length moves ≤ k → k < ses_len s0 →
       read (ses_buffer s) (Idx k) = None).
Proof.
  intros Hstart HL. pose proof (start_bound _ _ Hstart) as Hbound.
  destruct (start_state _ _ Hstart) as (Hi & Hslots & _ & _).
  destruct (record_all_inv s0 (ses_len s0) moves Hi Hslots eq_refl HL Hbound)
    as (Hcur & Hlength & Hkept & Hfree).
  split; [done|]. split; [done|]. split.
  - intros j m Hj Hwin. by apply read_slot, Hkept.
  - intros k Hk HkL. by apply read_slot, Hfree.
Qed.

Lemma X4_buffer_keeps_last_moves_witness :
  ses_i (record_all session_100 moves_32) = Idx 2
  ∧ read (ses_buffer (record_all session_100 moves_32)) (Idx 1)
    = Some (sample 31 0 1310)
  ∧ read (ses_buffer (record_all session_100 moves_32)) (Idx 2)
    = Some (sample 2 0 1020).
Proof.
  destruct (X4_buffer_keeps_last_moves (Fin 100) session_100 moves_32
              eq_refl ltac:(simpl; lia)) as (Hcur & _ & Hkept & _).
  split; [exact Hcur|]. split.
  - exact (Hkept 31 _ eq_refl ltac:(simpl; lia)).
  - exact (Hkept 2 _ eq_refl ltac:(simpl; lia)).
Defined.

(** The slot the anchor copies holds the last move. *)
Lemma last_move_before_cursor s0 L moves m :
  ses_i s0 = Idx 0 →
  slots (ses_buffer s0) = replicate L None →
  ses_len s0 = L → 0 < L → (Z.of_nat L ≤ 4294967295)%Z →
  last moves = Some m →
  let s := record_all s0 moves in
  read_before (ses_buffer s) (anchor_index (ses_buffer s) (ses_i s))
  = Some (datum_of m).
Proof.
  intros Hi Hslots Hlen HL Hbound Hlast.
  destruct (record_all_inv s0 L moves Hi Hslots Hlen HL Hbound)
    as (Hcur & Hlength & Hkept & _).
  cbn zeta. rewrite Hcur.
  rewrite last_lookup in Hlast.
  assert (0 < length moves) as Hn.
  { destruct moves; [done|simpl; lia]. }
  set (n := length moves) in *.
  replace (pred n) with (n - 1) in Hlast by lia.
  specialize (Hkept (n - 1) m Hlast ltac:(lia)).
  pose proof (Nat.div_mod_eq n L) as Hdiv.
  assert (n mod L < L) as Hlt by (apply Nat.mod_upper_bound; lia).
  destruct (n mod L) as [|c] eqn:Hc.
  - (* the cursor has wrapped to 0: the last move is in the last slot *)
    cbn [anchor_index]. rewrite Hlength.
    destruct L as [|L']; [lia|]. cbn [read_before].
    assert ((n - 1) mod S L' = L') as Hmod.
    { symmetry. apply (Nat.mod_unique _ _ (n / S L' - 1)); [lia|].
      assert (0 < n / S L') by nia. nia. }
    rewrite Hmod in Hkept. by apply read_slot.
  - cbn [anchor_index read_before].
    assert ((n - 1) mod L = c) as Hmod.
    { symmetry. apply (Nat.mod_unique _ _ (n / L)); lia. }
    rewrite Hmod in Hkept. by apply read_slot.
Qed.

(** X5: in a session of capacity L > 0 with at least one move, wrapped
    around or not, the anchor written at release carries the position of the
    last move and the time of the release. *)
Theorem X5_anchor_is_last_move_at_release
    (msec : num) (s0 : Session) (moves : list Move) (m : Move) (now : Q) :
  dragExitVelocity msec = Some s0 →
  0 < ses_len s0 →
  last moves = Some m →
  let s := record_all s0 moves in
  ∃ k, anchor_index (ses_buffer s) (ses_i s) = Idx k
    ∧ read (add_anchor (ses_buffer s) (ses_i s) now) (Idx k)
      = Some {| pos_x := m.1.1; pos_y := m.1.2; time := Fin now |}.
Proof.
  intros Hstart HL Hlast. cbn zeta.
  pose proof (start_bound _ _ Hstart) as Hbound.
  destruct (start_state _ _ Hstart) as (Hi & Hslots & _ & _).
  pose proof (last_move_before_cursor s0 (ses_len s0) moves m
                Hi Hslots eq_refl HL Hbound Hlast) as Hsrc.
  cbn zeta in Hsrc.
  destruct (record_all_inv s0 (ses_len s0) moves Hi Hslots eq_refl HL Hbound)
    as (Hcur & Hlength & _).
  unfold add_anchor. rewrite Hsrc. rewrite Hcur.
  destruct (anchor_index _ (Idx _)) as [k|] eqn:Hk; [|by destruct (_ mod _)].
  exists k. split; [done|]. apply read_write.
  destruct (length moves mod ses_len s0) as [|c] eqn:Hc;
    cbn [anchor_index] in Hk; injection Hk as <-.
  - right. lia.
  - left. unfold array_index. apply Z.ltb_lt.
    pose proof (Nat.mod_upper_bound (length moves) (ses_len s0)). lia.
Qed.

Lemma X5_anchor_is_last_move_at_release_witness :
  ∃ k, anchor_index (ses_buffer (record_all session_100 moves_32))
         (ses_i (record_all session_100 moves_32)) = Idx k
    ∧ read (add_anchor (ses_buffer (record_all session_100 moves_32))
              (ses_i (record_all session_100 moves_32)) 1400) (Idx k)
      = Some (sample 31 0 1400).
Proof.
  exact (X5_anchor_is_last_move_at_release (Fin 100) session_100 moves_32
           (Fin 31, Fin 0, 1310%Q) 1400%Q eq_refl ltac:(simpl; lia) eq_refl).
Defined.

(** With no slot at all the first move makes the array grow to one element
    and the cursor [NaN]; every later move is written to [buffer[NaN]]. *)
Lemma zero_capacity_inv s0 moves :
  ses_i s0 = Idx 0 →
  slots (ses_buffer s0) = [] →
  ses_len s0 = 0 →
  let s := record_all s0 moves in
  match moves with
  | [] => ses_i s = Idx 0 ∧ slots (ses_buffer s) = []
  | m :: _ => ses_i s = NaNIdx ∧ slots (ses_buffer s) = [Some (datum_of m)]
  end.
Proof.
  intros Hi Hslots Hlen.
  induction moves as [|m moves IH] using rev_ind; [done|].
  cbn zeta in *. rewrite record_all_snoc.
  destruct (record_all_fixed s0 moves) as [Hl _].
  destruct moves as [|m0 moves].
  - change (record_all s0 []) with s0. cbn [app mousemove ses_i ses_buffer].
    rewrite Hi, Hlen, slots_write. cbn [advance]. by rewrite Hslots.
  - destruct IH as [Hcur Hs]. cbn [app].
    cbn [mousemove ses_i ses_buffer]. by rewrite Hcur, Hl, Hlen.
Qed.

Lemma zero_capacity_start q :
  (-5 <= q)%Q → (q < 5)%Q →
  dragExitVelocity (Fin q)
  = Some {| ses_buffer := mkBuffer [] None;
            ses_i := Idx 0; ses_len := 0; ses_msec := Fin q |}.
Proof.
  intros Hlo Hhi. unfold dragExitVelocity.
  rewrite capacity_finite, new_Array_integer.
  assert (q / 10 == q * (1 # 10))%Q as Hdiv by (unfold Qdiv; reflexivity).
  assert (Qfloor (q / 10 + (1 # 2)) = 0%Z) as ->; [|done].
  assert (0 ≤ Qfloor (q / 10 + (1 # 2)))%Z as H0.
  { apply Qfloor_ge_iff. change (inject_Z 0) with 0%Q. rewrite Hdiv. lra. }
  assert (¬ (1 ≤ Qfloor (q / 10 + (1 # 2)))%Z) as H1.
  { rewrite Qfloor_ge_iff. change (inject_Z 1) with 1%Q. rewrite Hdiv. lra. }
  lia.
Qed.

(** X6: a window from -5 up to (not including) 5 ms gives a buffer of
    capacity 0.  The session starts all the same; of all the moves only the
    first one is kept in the array, and the release always delivers
    [{Vx: 0, Vy: 0}]. *)
Theorem X6_window_below_5ms_gives_zero (q : Q) :
  (-5 <= q)%Q → (q < 5)%Q →
  ∃ s0, dragExitVelocity (Fin q) = Some s0
    ∧ ∀ (moves : list Move) (now : Q),
        slots (ses_buffer (record_all s0 moves))
        = match moves with [] => [] | m :: _ => [Some (datum_of m)] end
        ∧ velocity <$> mouseup (record_all s0 moves) now = Some zero_velocity.
Proof.
  intros Hlo Hhi. eexists. split; [by apply zero_capacity_start|].
  intros moves now.
  set (s0 := {| ses_buffer := mkBuffer [] None;
                ses_i := Idx 0; ses_len := 0; ses_msec := Fin q |}).
  pose proof (zero_capacity_inv s0 moves eq_refl eq_refl eq_refl) as Hinv.
  cbn zeta in Hinv. unfold mouseup.
  destruct moves as [|m moves]; destruct Hinv as [Hcur Hs].
  - split; [done|]. apply empty_buffer_zero. rewrite Hs. constructor.
  - split; [done|]. rewrite Hcur.
    unfold computeVelocity, add_anchor. cbn [anchor_index write slots].
    rewrite Hs.
    unfold trailing_edge, interpolateTrailingEdge, velocity_of. simpl.
    assert (Qeq_bool (m.2 + - m.2) 0 = true) as ->; [|done].
    apply Qeq_bool_iff. lra.
Qed.

Lemma X6_window_below_5ms_gives_zero_witness :
  ∃ s0, dragExitVelocity (Fin 4) = Some s0
    ∧ velocity <$> mouseup (record_all s0 moves_32) 1400 = Some zero_velocity.
Proof.
  destruct (X6_window_below_5ms_gives_zero 4 ltac:(lra) ltac:(lra))
    as (s0 & Hs0 & H).
  exists s0. split; [exact Hs0|]. exact (proj2 (H moves_32 1400%Q)).
Defined.

(** X7: once a buffer of capacity L > 0 is full, the slot at the cursor
    holds the oldest move still kept; unless the cursor is 0, the anchor is
    written over it at release, so that move takes no part in the
    estimate. *)
Theorem X7_release_drops_oldest_move
    (msec : num) (s0 : Session) (moves : list Move) (m : Move) (now : Q) :
  dragExitVelocity msec = Some s0 →
  0 < ses_len s0 →
  moves !! (length moves - ses_len s0) = Some m →
  ses_len s0 ≤ length moves →
  length moves mod ses_len s0 ≠ 0 →
  let s := record_all s0 moves in
  read (ses_buffer s) (ses_i s) = Some (datum_of m)
  ∧ anchor_index (ses_buffer s) (ses_i s) = ses_i s
  ∧ ∃ a, read (add_anchor (ses_buffer s) (ses_i s) now) (ses_i s) = Some a
      ∧ time a = Fin now.
Proof.
  intros Hstart HL Hm Hfull Hc. cbn zeta.
  pose proof (start_bound _ _ Hstart) as Hbound.
  destruct (start_state _ _ Hstart) as (Hi & Hslots & _ & _).
  destruct (record_all_inv s0 (ses_len s0) moves Hi Hslots eq_refl HL Hbound)
    as (Hcur & _ & Hkept & _).
  set (L := ses_len s0) in *. set (n := length moves) in *.
  rewrite Hcur.
  assert ((n - L) mod L = n mod L) as Hmod.
  { pose proof (Nat.div_mod_eq n L) as Hdiv.
    assert (n mod L < L) by (apply Nat.mod_upper_bound; lia).
    symmetry. apply (Nat.mod_unique _ _ (n / L - 1)); [done|].
    assert (0 < n / L) by nia. nia. }
  split; [|split].
  - apply read_slot. rewrite <- Hmod. apply (Hkept (n - L) m Hm). lia.
  - destruct (n mod L); [done|done].
  - unfold add_anchor. destruct (n mod L) as [|c] eqn:E; [done|].
    cbn [anchor_index].
    exists (set_time (extend (read_before
                               (ses_buffer (record_all s0 moves))
                               (Idx (S c)))) (Fin now)).
    split; [|done]. apply read_write. left.
    unfold array_index. apply Z.ltb_lt.
    pose proof (Nat.mod_upper_bound n L). lia.
Qed.

Lemma X7_release_drops_oldest_move_witness :
  read (ses_buffer (record_all session_100 moves_32))
    (ses_i (record_all session_100 moves_32)) = Some (sample 2 0 1020)
  ∧ anchor_index (ses_buffer (record_all session_100 moves_32))
      (ses_i (record_all session_100 moves_32))
    = ses_i (record_all session_100 moves_32).
Proof.
  destruct (X7_release_drops_oldest_move (Fin 100) session_100 moves_32
              (Fin 2, Fin 0, 1020%Q) 1400%Q eq_refl ltac:(simpl; lia)
              eq_refl ltac:(simpl; lia) ltac:(simpl; lia))
    as (Hold & Hidx & _).
  split; [exact Hold | exact Hidx].
Defined.

(** * The estimate on finite samples *)

Lemma boundary_index_cons mr rest msec :
  trailing_edge (mr :: rest) msec
  = interpolateTrailingEdge (mr :: rest) (boundary_index (mr :: rest) msec)
      msec (Fin 50).
Proof. apply trailing_edge_cons. Qed.

Lemma weighted_fin mr b tr w tm tb tt :
  time mr = Fin tm → time b = Fin tb → time tr = Fin tt →
  ¬ (tb - tt == 0)%Q →
  time (weighted mr b tr (Fin w))
  = Fin (weight1 tb tt (tm - w) * tb + weight2 tb tt (tm - w) * tt)
  ∧ ∀ ax, coord ax (weighted mr b tr (Fin w))
          = nadd (nmul (Fin (weight1 tb tt (tm - w))) (coord ax b))
                 (nmul (Fin (weight2 tb tt (tm - w))) (coord ax tr)).
Proof.
  intros Htm Htb Htt Hg. split.
  - unfold weighted. cbn [time]. rewrite Htm, Htb, Htt.
    autorewrite with num. rewrite !ndiv_Fin by done. by autorewrite with num.
  - intros ax. rewrite weighted_coord, Htm, Htb, Htt.
    autorewrite with num. rewrite !ndiv_Fin by done. by autorewrite with num.
Qed.

(** The boundary sample for finite times and a window that is not
    negative: the samples up to the boundary index are in the window, the
    next one is before it, and the boundary sample is returned as it is or
    interpolated with that next one. *)
Lemma trailing_edge_cases s w bf m :
  Forall fin_time s → (0 <= w)%Q →
  trailing_edge s (Fin w) = Some (bf, m) →
  ∃ mr b,
    s !! 0 = Some mr
    ∧ s !! boundary_index s (Fin w) = Some b
    ∧ bf = <[boundary_index s (Fin w) := m]> s
    ∧ (∀ p o, p ≤ boundary_index s (Fin w) → s !! p = Some o →
         (qtime mr - w <= qtime o)%Q)
    ∧ (∀ tr, s !! S (boundary_index s (Fin w)) = Some tr →
         (qtime tr < qtime mr - w)%Q)
    ∧ ((m = b
        ∧ ∀ tr, s !! S (boundary_index s (Fin w)) = Some tr →
            (50 <= qtime b - qtime tr)%Q)
       ∨ ∃ tr, s !! S (boundary_index s (Fin w)) = Some tr
           ∧ (qtime b - qtime tr < 50)%Q
           ∧ m = (b.1, weighted mr.2 b.2 tr.2 (Fin w))).
Proof.
  intros Hfin Hw Ht.
  destruct s as [|mr rest]; [done|].
  rewrite boundary_index_cons in Ht.
  pose proof (scan_bounds (nsub (time mr.2) (Fin w)) rest 1 mr) as Hj.
  destruct (scan_spec (nsub (time mr.2) (Fin w)) rest 1 mr) as [Hin Hout].
  unfold boundary_index in *.
  set (j := (scan (nsub (time mr.2) (Fin w)) rest 1 mr).1) in *.
  destruct (interpolate_inv _ _ _ _ _ _ Ht) as (b0 & Hb0 & _ & Hbf).
  destruct (interpolate_cases _ _ _ _ _ _ Ht)
    as (mr' & b & [= <-] & Hb & Hcase).
  pose proof (proj1 (Forall_forall _ _) Hfin) as Hall.
  assert (fin_time mr) as Hmr by (apply Hall; by left).
  pose proof (fin_time_qtime mr Hmr) as Htm.
  assert (∀ p o, (mr :: rest) !! p = Some o → time o.2 = Fin (qtime o))
    as Hq.
  { intros p o Ho. apply fin_time_qtime, Hall.
    by apply list_elem_of_lookup_2 in Ho. }
  assert (∀ tr, (mr :: rest) !! S (j - 1) = Some tr →
            (qtime tr < qtime mr - w)%Q) as Hnext.
  { intros tr Htr. simpl in Htr. specialize (Hout tr Htr).
    rewrite (Hq (S (j - 1)) tr Htr), Htm in Hout.
    autorewrite with num in Hout. by apply nlt_Fin in Hout. }
  exists mr, b. split; [done|]. split; [done|]. split; [done|].
  split; [|split; [done|]].
  - intros [|p] o Hp Ho.
    + injection Ho as <-. lra.
    + simpl in Ho. specialize (Hin p o ltac:(lia) Ho).
      rewrite (Hq (S p) o Ho), Htm in Hin.
      autorewrite with num in Hin. by apply nlt_Fin_false in Hin.
  - destruct Hcase as [(-> & _ & Hgap)|(tr & Htr & Hgap & -> & _)].
    + left. split; [done|]. intros tr Htr. specialize (Hgap tr Htr).
      rewrite (Hq _ _ Hb), (Hq _ _ Htr) in Hgap.
      autorewrite with num in Hgap. by apply nlt_Fin_false in Hgap.
    + right. exists tr. split; [done|]. split; [|done].
      rewrite (Hq _ _ Hb), (Hq _ _ Htr) in Hgap.
      autorewrite with num in Hgap. by apply nlt_Fin in Hgap.
Qed.

Lemma velocity_of_same (m : Sample) :
  (∃ t, time m = Fin t) → velocity_of m m = zero_velocity.
Proof.
  intros [t Ht]. unfold velocity_of. rewrite Ht.
  by rewrite is_zero_self.
Qed.

(** The anchor at the head of the sorted array, the other samples behind
    it. *)
Lemma anchor_head b n k now :
  anchor_index b (Idx n) = Idx k →
  array_index k = true →
  (∀ r s, r ≠ k → slots b !! r = Some (Some s) →
     nlt (time s) (Fin now) = true) →
  ∃ rest,
    sorted_samples b (Idx n) now
    = (k, set_time (extend (read_before b (Idx k))) (Fin now)) :: rest
    ∧ ∀ o, o ∈ rest → o.1 ≠ k ∧ slots b !! o.1 = Some (Some o.2).
Proof.
  intros Hk Ha Hold. unfold sorted_samples.
  rewrite (slots_add_anchor_index b (Idx n) now k Hk Ha).
  set (a := set_time (extend (read_before b (Idx k))) (Fin now)).
  destruct (compact_store (slots b) k a) as (c1 & c2 & Hc & Helem).
  rewrite Hc.
  assert (∀ c, c ⊆ c1 ++ c2 → Forall (older_than (k, a)) c) as Hall.
  { intros c Hsub. apply Forall_forall. intros o Ho.
    destruct (Helem o (Hsub o Ho)) as [Hne Hl].
    split; [done|]. simpl. by apply (Hold o.1). }
  assert (head (sort by_time_desc (c1 ++ (k, a) :: c2)) = Some (k, a))
    as Hhead.
  { apply sort_into_head_latest.
    - constructor.
    - apply Hall. intros o Ho. apply elem_of_app. by left.
    - apply Hall. intros o Ho. apply elem_of_app. by right. }
  pose proof (sort_perm by_time_desc (c1 ++ (k, a) :: c2)) as Hp.
  destruct (sort by_time_desc (c1 ++ (k, a) :: c2)) as [|x rest];
    [done|].
  injection Hhead as ->. exists rest. split; [done|].
  rewrite <- Permutation_middle in Hp. apply Permutation_cons_inv in Hp.
  intros o Ho. apply Helem. by rewrite <- Hp.
Qed.

(** X12: when the cursor is a number, the anchor is written at an array
    index, the window is not negative and every recorded sample that the
    release leaves in the buffer is strictly older than the window, that is
    the pointer has been still for longer than the window, the result is
    exactly [{Vx: 0, Vy: 0}]. *)
Theorem X12_pause_longer_than_window_gives_zero
    (b : Buffer) (n k : nat) (w now : Q) :
  anchor_index b (Idx n) = Idx k →
  array_index k = true →
  (0 <= w)%Q →
  (∀ r s, r ≠ k → slots b !! r = Some (Some s) →
     ∃ t, time s = Fin t ∧ (t < now - w)%Q) →
  velocity <$> computeVelocity b (Idx n) (Fin w) now = Some zero_velocity.
Proof.
  intros Hk Ha Hw Hold.
  destruct (anchor_head b n k now Hk Ha) as (rest & Hsorted & Hrest).
  { intros r s Hr Hs. destruct (Hold r s Hr Hs) as (t & -> & Ht).
    apply nlt_Fin. lra. }
  set (a := set_time (extend (read_before b (Idx k))) (Fin now)) in *.
  assert (∀ o, o ∈ rest → ∃ t, time o.2 = Fin t ∧ (t < now - w)%Q) as Hlate.
  { intros o Ho. destruct (Hrest o Ho) as [Hne Hs]. by apply (Hold o.1). }
  assert (boundary_index ((k, a) :: rest) (Fin w) = 0) as Hb0.
  { unfold boundary_index. destruct rest as [|o rest']; [done|].
    destruct (Hlate o ltac:(by left)) as (t & Ht & Hlt).
    simpl. rewrite Ht.
    assert (nlt (Fin t) (Fin (now + - w)) = true) as ->
      by (apply nlt_Fin; lra).
    done. }
  rewrite computeVelocity_velocity, Hsorted.
  destruct (compact _) as [|o l] eqn:Hc.
  { exfalso. by apply (compact_anchor_nonempty b (Idx n) now k Hk Ha). }
  rewrite boundary_index_cons, Hb0.
  destruct (interpolate_total ((k, a) :: rest) 0 (Fin w) (Fin 50))
    as [[bf m] Hi]; [simpl; lia|].
  rewrite Hi. cbn [mbind option_bind].
  destruct (interpolate_inv _ _ _ _ _ _ Hi) as (b0 & _ & _ & ->).
  cbn [lookup list_lookup insert list_insert mbind option_bind].
  rewrite velocity_of_same; [done|].
  destruct (interpolate_cases _ _ _ _ _ _ Hi)
    as (mr & b1 & [= <-] & [= <-] & [(-> & _)|(tr & Htr & _ & -> & _)]).
  - by exists now.
  - destruct (Hlate tr) as (tt & Htt & Hlt).
    { simpl in Htr. by apply list_elem_of_lookup_2 in Htr. }
    destruct (weighted_fin a a tr.2 w now now tt eq_refl eq_refl Htt
                ltac:(lra)) as [Hwt _].
    eexists. exact Hwt.
Qed.

Lemma X12_pause_longer_than_window_gives_zero_witness :
  velocity <$> computeVelocity buffer_C (Idx 3) (Fin 80) 1000
  = Some zero_velocity.
Proof.
  apply (X12_pause_longer_than_window_gives_zero buffer_C 3 3 80 1000).
  - reflexivity.
  - reflexivity.
  - lra.
  - intros r s Hr Hs.
    do 6 (destruct r as [|r];
          [simpl in Hs;
           first [discriminate Hs
                 | injection Hs as <-; eexists; split; [reflexivity|lra]]|]).
    discriminate Hs.
Defined.

(** The anchor has to be written at an array index for this: in an array
    of 2^32 - 1 elements with the cursor at 0 the anchor is a plain property,
    the most recent sample of the sorted array is the last recorded one, and
    two samples 10 ms and 10 pixels apart, both long before the window, give
    1000 px/s. *)
Lemma pause_without_anchor (M : nat) :
  Z.of_nat (S (S M)) = 4294967295%Z →
  ∃ b v,
    b = mkBuffer (Some (sample 0 0 0) :: Some (sample 10 0 10)
                    :: replicate M None) None
    ∧ anchor_index b (Idx 0) = Idx (S (S M))
    ∧ array_index (S (S M)) = false
    ∧ (∀ r s, r ≠ S (S M) → slots b !! r = Some (Some s) →
         ∃ t, time s = Fin t ∧ (t < 1000 - 100)%Q)
    ∧ velocity <$> computeVelocity b (Idx 0) (Fin 100) 1000 = Some v
    ∧ num_eqb (Vx v) (Fin 1000) = true.
Proof.
  intros HZ.
  set (b := mkBuffer (Some (sample 0 0 0) :: Some (sample 10 0 10)
                        :: replicate M None) None).
  assert (anchor_index b (Idx 0) = Idx (S (S M))) as Hk
    by (cbn [anchor_index b slots mkBuffer length];
        by rewrite length_replicate).
  assert (array_index (S (S M)) = false) as Ha
    by (unfold array_index; rewrite HZ; apply Z.ltb_irrefl).
  exists b. eexists. split; [reflexivity|]. split; [exact Hk|].
  split; [exact Ha|]. split; [|split].
  - intros r s _ Hs. destruct r as [|[|r]]; simpl in Hs.
    + injection Hs as <-. eexists. split; [reflexivity|lra].
    + injection Hs as <-. eexists. split; [reflexivity|lra].
    + apply lookup_replicate_1 in Hs as [Hs _]. discriminate Hs.
  - rewrite computeVelocity_velocity. unfold sorted_samples.
    rewrite (slots_add_anchor_prop b (Idx 0) 1000 (S (S M)) Hk Ha).
    cbn [b slots mkBuffer]. unfold compact. cbn [compact_from].
    rewrite (compact_from_empty 2 (replicate M None))
      by by apply Forall_replicate.
    reflexivity.
  - reflexivity.
Qed.

(** * The sorted array and the window *)

(** X13: for samples of finite time, the sorted array of
    [computeVelocity] holds each element of the array, as lines 123-125
    leave it, once (the anchor is one of them when it is written at an array
    index), and no sample in it comes before an older one. *)
Theorem X13_sorted_array_newest_first
    (b : Buffer) (i : Cursor) (now : Q) :
  finite_times b →
  (∀ k s, (k, s) ∈ sorted_samples b i now
          ↔ slots (add_anchor b i now) !! k = Some (Some s))
  ∧ (∀ k, anchor_index b i = Idx k → array_index k = true →
       (k, set_time (extend (read_before b (Idx k))) (Fin now))
       ∈ sorted_samples b i now)
  ∧ NoDup (sorted_samples b i now).*1
  ∧ StronglySorted not_before (sorted_samples b i now).
Proof.
  intros Hfin.
  assert (∀ k s, (k, s) ∈ sorted_samples b i now
                 ↔ slots (add_anchor b i now) !! k = Some (Some s)) as Hmem.
  { intros k s. unfold sorted_samples. by rewrite sort_perm, compact_elem. }
  split; [done|]. split; [|split].
  - intros k Hk Ha. by apply Hmem, add_anchor_lookup.
  - unfold sorted_samples. rewrite sort_perm. apply compact_from_NoDup.
  - apply sorted_samples_sorted. unfold sorted_samples.
    rewrite sort_perm. by apply anchored_fin_time.
Qed.

Lemma X13_sorted_array_newest_first_witness :
  (2, sample 20 0 1100) ∈ sorted_samples buffer_F (Idx 3) 1100
  ∧ (3, sample 20 0 1100) ∈ sorted_samples buffer_F (Idx 3) 1100
  ∧ StronglySorted not_before (sorted_samples buffer_F (Idx 3) 1100).
Proof.
  destruct (X13_sorted_array_newest_first buffer_F (Idx 3) 1100%Q
              buffer_F_finite) as (Hmem & Hanchor & _ & Hsorted).
  split; [|split; [|exact Hsorted]].
  - apply Hmem. reflexivity.
  - apply (Hanchor 3); reflexivity.
Defined.

(** X14: for samples of finite time and a window that is not negative, the
    index passed to [interpolateTrailingEdge] splits the sorted array at the
    start of the window: every sample up to it is inside the window, every
    sample behind it is strictly before the window. *)
Theorem X14_boundary_index_splits_at_window
    (b : Buffer) (i : Cursor) (w now : Q) (mr : Obj) :
  finite_times b →
  (0 <= w)%Q →
  sorted_samples b i now !! 0 = Some mr →
  ∀ p o, sorted_samples b i now !! p = Some o →
    (p ≤ boundary_index (sorted_samples b i now) (Fin w) →
       (qtime mr - w <= qtime o)%Q)
    ∧ (boundary_index (sorted_samples b i now) (Fin w) < p →
       (qtime o < qtime mr - w)%Q).
Proof.
  intros Hfin Hw Hmr p o Ho.
  assert (Forall fin_time (sorted_samples b i now)) as Hft.
  { unfold sorted_samples. rewrite sort_perm. by apply anchored_fin_time. }
  pose proof (sorted_samples_sorted b i now Hft) as Hs.
  set (s := sorted_samples b i now) in *.
  destruct (trailing_edge_total s (Fin w)) as [[bf m] Ht].
  { by destruct s. }
  destruct (trailing_edge_cases s w bf m Hft Hw Ht)
    as (mr0 & bd & Hmr0 & _ & _ & Hwin & Hnext & _).
  rewrite Hmr in Hmr0. injection Hmr0 as <-.
  set (k := boundary_index s (Fin w)) in *.
  split; [intros Hp; by apply (Hwin p)|].
  intros Hp.
  assert (is_Some (s !! S k)) as [tr Htr].
  { apply lookup_lt_is_Some_2. apply lookup_lt_Some in Ho. lia. }
  specialize (Hnext tr Htr).
  destruct (decide (p = S k)) as [->|Hne].
  - rewrite Htr in Ho. by injection Ho as <-.
  - assert (not_before tr o) as (tt & to & Htt & Hto & Hle).
    { rewrite <- (take_drop p s) in Hs.
      apply (StronglySorted_app_1_elem_of _ _ _ _ _ Hs).
      - apply (list_elem_of_lookup_2 _ (S k)).
        rewrite lookup_take_lt by lia. done.
      - apply (list_elem_of_lookup_2 _ 0).
        rewrite lookup_drop, Nat.add_0_r. done. }
    unfold qtime in *. rewrite Htt in Hnext. rewrite Hto. simpl in *. lra.
Qed.

Lemma X14_boundary_index_splits_at_window_witness :
  boundary_index (sorted_samples buffer_F (Idx 3) 1100) (Fin 80) = 2
  ∧ (qtime (2%nat, sample 20 0 1100) - 80 <= qtime (1%nat, sample 10 0 1040))%Q
  ∧ (qtime (0%nat, sample 0 0 1000) < qtime (2%nat, sample 20 0 1100) - 80)%Q.
Proof.
  split; [reflexivity|]. split.
  - apply (X14_boundary_index_splits_at_window buffer_F (Idx 3) 80 1100
             (2%nat, sample 20 0 1100) buffer_F_finite ltac:(lra) eq_refl
             2 (1%nat, sample 10 0 1040) eq_refl).
    simpl. lia.
  - apply (X14_boundary_index_splits_at_window buffer_F (Idx 3) 80 1100
             (2%nat, sample 20 0 1100) buffer_F_finite ltac:(lra) eq_refl
             3 (0%nat, sample 0 0 1000) eq_refl).
    simpl. lia.
Defined.

(** * The recorder and the estimate together *)

(** X17: in every session that starts, whatever its window, after one move
    or more the release does not throw and does not take the [return] of
    the empty array: it takes the [return] of [elapsed === 0], with
    [{Vx: 0, Vy: 0}], or computes the velocity. *)
Theorem X17_release_after_moves_returns
    (msec : num) (s0 : Session) (moves : list Move) (now : Q) :
  dragExitVelocity msec = Some s0 →
  moves ≠ [] →
  ∃ out,
    mouseup (record_all s0 moves) now = Some out
    ∧ (exit out = ZeroElapsed ∧ velocity out = zero_velocity
       ∨ exit out = Computed).
Proof.
  intros Hstart Hne.
  destruct (exists_last Hne) as (moves' & m & ->).
  rewrite record_all_snoc.
  set (s := record_all s0 moves').
  assert (reachable msec s) as Hr
    by by apply record_all_reachable, reach_start.
  pose proof (moved_holds_sample msec s m.1.1 m.1.2 m.2 Hr) as Hrec.
  set (s' := mousemove s m.1.1 m.1.2 m.2) in *.
  assert (reachable msec s') as Hr' by by apply reach_move.
  assert (compact (slots (add_anchor (ses_buffer s') (ses_i s') now)) ≠ [])
    as Hkept.
  { rewrite (release_filters_nothing msec s' now Hr').
    intros [_ He]. by apply compact_empty in He. }
  unfold mouseup, computeVelocity.
  destruct (compact (slots (add_anchor _ _ now))) as [|o l] eqn:Hc; [done|].
  destruct (trailing_edge_total (sort by_time_desc (o :: l)) (ses_msec s'))
    as [[bf mt] Ht].
  { intros E. apply (f_equal length) in E. by rewrite sort_length in E. }
  destruct (trailing_edge_head _ _ _ _ Ht) as [mr Hmr].
  rewrite Ht. cbn [mbind option_bind]. rewrite Hmr. cbn [mbind option_bind].
  eexists. split; [reflexivity|]. cbn [exit velocity].
  destruct (is_zero _) eqn:Hz; [left|by right].
  split; [done|]. unfold velocity_of. by rewrite Hz.
Qed.

Lemma X17_release_after_moves_returns_witness :
  ∃ out,
    mouseup (record_all session_100 moves_32) 1320 = Some out
    ∧ (exit out = ZeroElapsed ∧ velocity out = zero_velocity
       ∨ exit out = Computed).
Proof.
  apply (X17_release_after_moves_returns (Fin 100) session_100 moves_32
           1320%Q).
  - reflexivity.
  - discriminate.
Defined.
